(** * The bypass aggregator: tracker, classifier, registry, cache, resolver

    A shallow embedding of the bypass module (its [CONFIG],
    [ApiPerformanceTracker], [FileService], [ValidationService], [firstValid],
    [BypassService] and the [/admin/add-api] route) together with the
    properties the specification states about it.

    Conventions of the embedding:
    - JavaScript numbers that take part in the score are modelled by [jsnum]:
      an exact rational, one of the two infinities, or NaN.  Rounding of
      IEEE doubles is not modelled; the concrete scores computed below are
      made of values on which the double operations of the source are exact.
    - Plain objects used as dictionaries ([stats], the parsed [urls.json]) are
      finite maps keyed by strings; properties inherited from
      [Object.prototype] are not modelled.
    - Response texts are sequences of UTF-16 code units; the regular
      expressions of the classifier are modelled for the pattern syntax the
      configured keywords use.
    - Asynchronous code is split at its [await]s.  What the outside world
      delivers to one request (the remote list, whether a file can be
      written, the clock, upstream replies and their order) is an explicit
      input; the continuation of one network event runs to its end before
      the next event is handled, as promise callbacks do.  Other requests
      running between the awaits of one request are not modelled. *)

From Stdlib Require Import QArith Qcanon Sorted.
From stdpp Require Import gmap strings list fin_maps numbers.

Local Open Scope Z_scope.

(** ** JavaScript numbers *)

Inductive jsnum :=
| Fin (q : Qc)
| PInf
| NInf
| NaN.

Definition qz (z : Z) : Qc := Qc_of_Z z.
Definition qnat (n : nat) : Qc := Qc_of_Z (Z.of_nat n).

(** [!x] is false for a number other than zero and NaN. *)
Definition num_truthy (x : jsnum) : bool :=
  match x with
  | Fin q => negb (bool_decide (q = 0%Qc))
  | PInf | NInf => true
  | NaN => false
  end.

(** [a || b] on numbers. *)
Definition num_or (a b : jsnum) : jsnum := if num_truthy a then a else b.

Definition qc_neg (q : Qc) : bool := bool_decide (q < 0)%Qc.
Definition qc_pos (q : Qc) : bool := bool_decide (0 < q)%Qc.

(** [a / b].  Zero is the positive zero: the counters and latencies of the
    tracker never produce a negative zero. *)
Definition num_div (a b : jsnum) : jsnum :=
  match a, b with
  | NaN, _ | _, NaN => NaN
  | Fin x, Fin y =>
      if bool_decide (y = 0%Qc)
      then (if bool_decide (x = 0%Qc) then NaN
            else if qc_neg x then NInf else PInf)
      else Fin (x / y)%Qc
  | Fin _, (PInf | NInf) => Fin 0%Qc
  | PInf, Fin y => if qc_neg y then NInf else PInf
  | NInf, Fin y => if qc_neg y then PInf else NInf
  | (PInf | NInf), (PInf | NInf) => NaN
  end.

(** [a - b]. *)
Definition num_sub (a b : jsnum) : jsnum :=
  match a, b with
  | NaN, _ | _, NaN => NaN
  | Fin x, Fin y => Fin (x - y)%Qc
  | Fin _, PInf => NInf
  | Fin _, NInf => PInf
  | PInf, PInf => NaN
  | PInf, _ => PInf
  | NInf, NInf => NaN
  | NInf, _ => NInf
  end.

(** [a > 0], the test [Array.prototype.sort] makes on a comparator's result
    (a NaN result counts as [+0]). *)
Definition num_pos (a : jsnum) : bool :=
  match a with
  | Fin q => qc_pos q
  | PInf => true
  | NInf | NaN => false
  end.

(** [a < b]. *)
Definition num_lt (a b : jsnum) : bool :=
  match a, b with
  | NaN, _ | _, NaN => false
  | Fin x, Fin y => bool_decide (x < y)%Qc
  | Fin _, PInf => true
  | Fin _, NInf => false
  | PInf, _ => false
  | NInf, NInf => false
  | NInf, _ => true
  end.

(** ** CONFIG *)

Module CONFIG.
Module API.
Definition ERROR_KEYWORDS : list string :=
  [ "erro"; "error"; "404"; "unsupported"; "invalid"; "failed"; "null";
    "afk"; "down"; "off"; "stop"; "discord"; "not"; "none"; "fall"; "er";
    "inva" ]%string.
Definition SUCCESS_KEYWORDS : list string :=
  [ "sucesso"; "ok"; "done"; "completed"; "success"; "valid";
    "authorized"; "passed"; "loadstring"; "local"; "https"; "http";
    "game:HttpGet"; "No stages or already authenticated";
    "You have been authenticated. Please proceed back to the application.";
    "key"; "FREE"; "link"; "type" ]%string.
Definition RETRY_LIMIT : nat := 1.
Definition RETRY_DELAY : Z := 2000.
End API.
Module SERVER.
Definition TIMEOUT : Z := 60000.
End SERVER.
Definition CACHE_DURATION : Z := 10 * 60 * 1000.
End CONFIG.

(** ** ApiPerformanceTracker *)

Record stat := mkStat {
  totalCalls : nat;
  successCalls : nat;
  totalTime : Qc
}.

Module ApiPerformanceTracker.

(** [record(apiUrl, responseTime, success)] on the [stats] object. *)
Definition record (apiUrl : string) (responseTime : Qc) (success : bool)
    (stats : gmap string stat) : gmap string stat :=
  let s0 := match stats !! apiUrl with
            | Some s => s
            | None => mkStat 0 0 0%Qc
            end in
  let s1 := mkStat (S (totalCalls s0)) (successCalls s0) (totalTime s0) in
  let s2 := if success
            then mkStat (totalCalls s1) (S (successCalls s1))
                        (totalTime s1 + responseTime)%Qc
            else s1 in
  <[apiUrl := s2]> stats.

(** [getScore(apiUrl)]. *)
Definition getScore (stats : gmap string stat) (apiUrl : string) : jsnum :=
  match stats !! apiUrl with
  | None => PInf
  | Some st =>
      if Nat.eqb (totalCalls st) 0 then PInf
      else
        let avgTime :=
          num_or (num_div (Fin (totalTime st)) (Fin (qnat (successCalls st))))
                 (Fin (qz CONFIG.SERVER.TIMEOUT)) in
        let successRate :=
          num_div (Fin (qnat (successCalls st))) (Fin (qnat (totalCalls st))) in
        num_div avgTime (num_or successRate (Fin (Q2Qc (1 # 10))))
  end.

End ApiPerformanceTracker.

(** A history of [record] calls, applied in order to the empty [stats]. *)
Definition record_call : Type := string * Qc * bool.

Definition apply_record (stats : gmap string stat) (c : record_call)
    : gmap string stat :=
  let '(apiUrl, responseTime, success) := c in
  ApiPerformanceTracker.record apiUrl responseTime success stats.

Definition record_all (calls : list record_call) : gmap string stat :=
  foldl apply_record ∅ calls.

(** ** Upstream descriptors and ranking *)

(** One entry of [apis.json] / [apisDat.json]: [{url, parse_json,
    response_key}]. *)
Record api := mkApi {
  url : string;
  parse_json : bool;
  response_key : string
}.

(** [Array.prototype.sort(cmp)].  The standard leaves the algorithm to the
    engine but requires a stable sort; the model is the stable insertion
    sort, where [a] is moved behind [b] exactly when [cmp(a, b) > 0]. *)
Fixpoint sort_insert {A} (cmp : A -> A -> jsnum) (a : A) (l : list A) : list A :=
  match l with
  | [] => [a]
  | b :: l' => if num_pos (cmp a b) then b :: sort_insert cmp a l' else a :: l
  end.

Definition array_sort {A} (cmp : A -> A -> jsnum) (l : list A) : list A :=
  foldr (sort_insert cmp) [] l.

(** The comparator of [sortApis]: [scoreA - scoreB]. *)
Definition compareApis (stats : gmap string stat) (a b : api) : jsnum :=
  let scoreA := ApiPerformanceTracker.getScore stats (url a) in
  let scoreB := ApiPerformanceTracker.getScore stats (url b) in
  num_sub scoreA scoreB.

(** [ApiPerformanceTracker.sortApis(apis)]. *)
Definition sortApis (stats : gmap string stat) (apis : list api) : list api :=
  array_sort (compareApis stats) apis.

(** ** Response values and texts *)

(** A JavaScript string is a sequence of UTF-16 code units. *)
Definition jsstring : Type := list N.

Definition js (s : string) : jsstring :=
  (fun a => Ascii.N_of_ascii a) <$> String.list_ascii_of_string s.

(** A value that reaches the classifier: [response.data] of an upstream call
    or one of its fields.  Objects and arrays carry their parsed fields and
    the text [JSON.stringify] gives for them; booleans and numbers are
    [VOther], with their truthiness and their JSON text. *)
#[warnings="-register-all"]
Inductive js_value :=
| VUndefined
| VNull
| VString (s : jsstring)
| VObject (fields : list (string * js_value)) (json : jsstring)
| VOther (truthy : bool) (json : jsstring).

(** [!!v]. *)
Definition truthy (v : js_value) : bool :=
  match v with
  | VUndefined | VNull => false
  | VString s => negb (bool_decide (s = []))
  | VObject _ _ => true
  | VOther t _ => t
  end.

Fixpoint assoc_lookup (key : string) (fields : list (string * js_value))
    : js_value :=
  match fields with
  | [] => VUndefined
  | (k, v) :: rest => if String.eqb k key then v else assoc_lookup key rest
  end.

(** [data[key]]; [None] when the access throws (on [null] and [undefined]).
    Own and inherited properties of strings, numbers and booleans are not
    modelled: the access gives [undefined] there. *)
Definition get_field (data : js_value) (key : string) : option js_value :=
  match data with
  | VUndefined | VNull => None
  | VObject fields _ => Some (assoc_lookup key fields)
  | VString _ | VOther _ _ => Some VUndefined
  end.

(** ** Regular expressions of the classifier *)

Definition in_range (lo hi c : N) : bool := ((lo <=? c) && (c <=? hi))%N.

(** [\w] without the unicode flag: [[A-Za-z0-9_]]. *)
Definition is_word_char (c : N) : bool :=
  in_range 48 57 c || in_range 65 90 c || in_range 97 122 c || (c =? 95)%N.

(** Line terminators, which [.] does not match. *)
Definition is_line_terminator (c : N) : bool :=
  ((c =? 10) || (c =? 13) || (c =? 8232) || (c =? 8233))%N.

(** Canonicalize of the [i] flag (no unicode flag), on the ASCII range.  A
    code unit from 128 on is never mapped into the ASCII range by the
    standard, so it never equals the canonical form of an ASCII pattern
    character; it is left unchanged here. *)
Definition canonicalize (c : N) : N :=
  if in_range 97 122 c then (c - 32)%N else c.

(** The pattern atoms that occur in the configured keywords. *)
Inductive atom :=
| AChar (c : N)
| AAny.

Definition atom_matches (a : atom) (c : N) : bool :=
  match a with
  | AChar p => (canonicalize p =? canonicalize c)%N
  | AAny => negb (is_line_terminator c)
  end.

(** Syntax characters of a pattern other than the dot. *)
Definition is_unsupported_syntax (c : N) : bool :=
  existsb (fun m => (c =? m)%N)
    [94; 36; 92; 42; 43; 63; 40; 41; 91; 93; 123; 125; 124]%N.

(** The body of [new RegExp(keyword)]: a dot is the wildcard, any other
    character stands for itself; [None] for a keyword that uses pattern
    syntax outside this fragment. *)
Fixpoint compile_atoms (kw : jsstring) : option (list atom) :=
  match kw with
  | [] => Some []
  | c :: rest =>
      if is_unsupported_syntax c then None
      else match compile_atoms rest with
           | None => None
           | Some atoms =>
               Some ((if (c =? 46)%N then AAny else AChar c) :: atoms)
           end
  end.

Definition is_word_opt (c : option N) : bool :=
  match c with
  | Some c => is_word_char c
  | None => false
  end.

(** [\b] between the code unit before and the code unit after a position. *)
Definition boundary (prev next : option N) : bool :=
  xorb (is_word_opt prev) (is_word_opt next).

(** The atoms, then [\b], matched at the front of [rest]. *)
Fixpoint match_here (atoms : list atom) (prev : option N) (rest : jsstring)
    : bool :=
  match atoms with
  | [] => boundary prev (head rest)
  | a :: atoms' =>
      match rest with
      | [] => false
      | c :: rest' => atom_matches a c && match_here atoms' (Some c) rest'
      end
  end.

(** [\b atoms \b] tried at every position of [text]. *)
Fixpoint search_from (atoms : list atom) (prev : option N) (text : jsstring)
    : bool :=
  (boundary prev (head text) && match_here atoms prev text)
  || match text with
     | [] => false
     | c :: rest => search_from atoms (Some c) rest
     end.

(** [new RegExp(`\\b${keyword}\\b`, 'i').test(text)]. *)
Definition keyword_test (keyword : string) (text : jsstring) : bool :=
  match compile_atoms (js keyword) with
  | Some atoms => search_from atoms None text
  | None => false
  end.

Definition is_hex_digit (c : N) : bool :=
  in_range 48 57 c || in_range 65 70 c || in_range 97 102 c.

(** [/^[a-f0-9]{32}$/i.test(text)]. *)
Definition hex32_test (text : jsstring) : bool :=
  bool_decide (length text = 32%nat) && forallb is_hex_digit text.

(** ** ValidationService *)

Module ValidationService.

(** [_toString(response)]; the branch for [undefined] is the text the
    pattern test coerces it to. *)
Definition _toString (response : js_value) : jsstring :=
  match response with
  | VString s => s
  | VObject _ json | VOther _ json => json
  | VNull => js "null"
  | VUndefined => js "undefined"
  end.

Definition isErrorResponse (responseText : js_value) : bool :=
  if negb (truthy responseText) then true
  else
    let text := _toString responseText in
    existsb (fun keyword => keyword_test keyword text)
      CONFIG.API.ERROR_KEYWORDS.

Definition isSuccessResponse (responseText : js_value) : bool :=
  if negb (truthy responseText) then false
  else
    let text := _toString responseText in
    existsb (fun keyword => keyword_test keyword text)
      CONFIG.API.SUCCESS_KEYWORDS.

Definition isValidResponse (responseText : js_value) : bool :=
  if negb (truthy responseText) then false
  else
    let text := _toString responseText in
    if hex32_test text then true
    else negb (isErrorResponse (VString text))
         && isSuccessResponse (VString text).

End ValidationService.

(** ** Persistent files and the outside world *)

(** One entry of [urls.json]: [{response, timestamp}]. *)
Record cache_entry := mkEntry {
  response : js_value;
  timestamp : Z
}.

(** What the module keeps between calls: the tracker's [stats] object and the
    two JSON files.  [urls_file] is [None] while [urls.json] cannot be read or
    parsed; [apis_dat] is [None] while [apisDat.json] cannot be read or
    parsed and [Some None] when the parsed document has no [apis] field. *)
Record state := mkState {
  stats : gmap string stat;
  urls_file : option (gmap string cache_entry);
  apis_dat : option (option (list api))
}.

(** The outcome of [axios.get(CONFIG.FILES.APIS_URL)]: a rejection, or a
    document with or without an [apis] field. *)
Inductive fetch_result :=
| FetchFailed
| FetchOk (apis : option (list api)).

(** What the network delivers during one fan-out, in the order it is
    delivered: the request of the [i]-th descriptor completes, with a body
    ([Some]) or a rejection ([None]: transport error, timeout, cancelled
    request), after [responseTime] milliseconds; or the retry delay of the
    [i]-th descriptor elapses. *)
Inductive net_event :=
| Reply (i : nat) (data : option js_value) (responseTime : Qc)
| TimerFired (i : nat).

(** The inputs of one request from outside the module: the remote list,
    whether [fs.writeFile] succeeds (its failure is logged and otherwise
    ignored), the clock at the cache check and in [saveUrl], and the network
    schedule. *)
Record env := mkEnv {
  remote : fetch_result;
  write_ok : bool;
  now_check : Z;
  now_save : Z;
  arrivals : list net_event
}.

(** ** FileService *)

Definition same_url (newApi : api) (a : api) : bool :=
  String.eqb (url a) (url newApi).

Module FileService.

Definition loadApis (e : env) : list api :=
  match remote e with
  | FetchOk (Some apis) => apis
  | FetchOk None | FetchFailed => []
  end.

Definition loadSavedUrls (s : state) : gmap string cache_entry :=
  match urls_file s with
  | Some saved => saved
  | None => ∅
  end.

Definition saveUrl (written : bool) (now : Z) (requested : string)
    (responseData : js_value) (s : state) : state :=
  let savedUrls := loadSavedUrls s in
  if written
  then mkState (stats s)
               (Some (<[requested := mkEntry responseData now]> savedUrls))
               (apis_dat s)
  else s.

Definition clearSavedUrls (written : bool) (s : state) : state :=
  if written then mkState (stats s) (Some ∅) (apis_dat s) else s.

Definition loadAdditionalApis (s : state) : list api :=
  match apis_dat s with
  | Some (Some apis) => apis
  | Some None | None => []
  end.

Definition saveAdditionalApis (written : bool) (apis : list api) (s : state)
    : state :=
  if written then mkState (stats s) (urls_file s) (Some (Some apis)) else s.

Definition addAdditionalApi (written : bool) (newApi : api) (s : state)
    : bool * state :=
  let additionalApis := loadAdditionalApis s in
  if existsb (same_url newApi) additionalApis then (false, s)
  else (true, saveAdditionalApis written (additionalApis ++ [newApi]) s).

End FileService.

(** ** The fan-out of one [processUrl] call *)

(** Where the promise of one descriptor stands: not yet called, waiting for
    [axios.get], waiting for the retry delay, or settled with a value
    ([null] is [VNull]). *)
Inductive phase :=
| Created
| InFlight
| Sleeping
| Settled (result : js_value).

Record task := mkTask {
  t_api : api;
  t_attempt : nat;
  t_phase : phase
}.

(** What a fan-out does that can be observed from outside: a request to an
    upstream (descriptor template, requested url), the retry delay, a call of
    [ApiPerformanceTracker.record]. *)
Inductive effect :=
| NetCall (template requested : string)
| Delay (ms : Z)
| Recorded (apiUrl : string) (success : bool).

(** The shared variables of one fan-out: the promises, the abort signal,
    [settledCount] and [resolved] of [firstValid] (with the value given to
    [resolve]), whether [reject] was called, the tracker and the effects so
    far. *)
Record fan := mkFan {
  tasks : list task;
  aborted : bool;
  settledCount : nat;
  resolved : option js_value;
  rejected : bool;
  fstats : gmap string stat;
  trace : list effect
}.

Definition is_resolved (f : fan) : bool :=
  match resolved f with
  | Some _ => true
  | None => false
  end.

(** The [then] callback of [firstValid] for one settled promise.  When it
    calls [resolve], [processUrl] resumes before any further network event
    and calls [abortController.abort()].  The [catch] callback of
    [firstValid] has no counterpart: [_tryApiWithRetry] catches every
    exception, so its promise is never rejected. *)
Definition firstValid_then (result : js_value) (f : fan) : fan :=
  let count := S (settledCount f) in
  if truthy result && ValidationService.isValidResponse result
     && negb (is_resolved f)
  then mkFan (tasks f) true count (Some result) (rejected f)
             (fstats f) (trace f)
  else if Nat.eqb count (length (tasks f)) && negb (is_resolved f)
  then mkFan (tasks f) (aborted f) count (resolved f) true
             (fstats f) (trace f)
  else mkFan (tasks f) (aborted f) count (resolved f) (rejected f)
             (fstats f) (trace f).

(** The promise in slot [i] settles with [result]. *)
Definition settle (i : nat) (a : api) (attempt : nat) (result : js_value)
    (f : fan) : fan :=
  firstValid_then result
    (mkFan (<[i := mkTask a attempt (Settled result)]> (tasks f)) (aborted f)
           (settledCount f) (resolved f) (rejected f) (fstats f) (trace f)).

(** The call of [ApiPerformanceTracker.record] inside an attempt. *)
Definition track (apiUrl : string) (responseTime : Qc) (success : bool)
    (f : fan) : fan :=
  mkFan (tasks f) (aborted f) (settledCount f) (resolved f) (rejected f)
        (ApiPerformanceTracker.record apiUrl responseTime success (fstats f))
        (trace f ++ [Recorded apiUrl success]).

(** The two errors [processUrl] throws: ['Nenhuma API configurada'] and
    ['Nenhuma API conseguiu processar a URL']. *)
Inductive error :=
| NoUpstreamsConfigured
| AllUpstreamsFailed.

(** How a [processUrl] call ends: the object with the cached response and the
    message ["URL já foi processada recentemente."], the object with a new
    result, an error, or no end yet when the network schedule stops before
    [firstValid] settles. *)
Inductive outcome :=
| CacheHit (result : js_value)
| Fresh (result : js_value)
| Thrown (e : error)
| Pending.

(** The cache check of [processUrl]: [savedUrls[url]], kept when
    [Date.now() - savedUrl.timestamp < CONFIG.CACHE_DURATION]. *)
Definition cache_get (now : Z) (savedUrls : gmap string cache_entry)
    (requested : string) : option cache_entry :=
  match savedUrls !! requested with
  | Some savedUrl =>
      if now - timestamp savedUrl <? CONFIG.CACHE_DURATION then Some savedUrl
      else None
  | None => None
  end.

Module BypassService.

(** [_tryApiWithRetry(url, apiConfig, attempt, abortController)] up to its
    [await axios.get(...)]: nothing happens once the signal is aborted,
    otherwise the request is sent. *)
Definition _tryApiWithRetry_call (requested : string) (i : nat)
    (apiConfig : api) (attempt : nat) (f : fan) : fan :=
  if aborted f then settle i apiConfig attempt VNull f
  else mkFan (<[i := mkTask apiConfig attempt InFlight]> (tasks f))
             (aborted f) (settledCount f) (resolved f) (rejected f)
             (fstats f)
             (trace f ++ [NetCall (url apiConfig) requested]).

(** [apiConfig.parse_json ? response.data[apiConfig.response_key] :
    response.data]; [None] when [axios.get] rejected or the field access
    throws. *)
Definition extract_result (apiConfig : api) (data : option js_value)
    : option js_value :=
  match data with
  | None => None
  | Some d =>
      if parse_json apiConfig then get_field d (response_key apiConfig)
      else Some d
  end.

(** The [catch] block of [_tryApiWithRetry]. *)
Definition _tryApiWithRetry_catch (RETRY_LIMIT : nat) (i : nat)
    (apiConfig : api) (attempt : nat) (responseTime : Qc) (f : fan) : fan :=
  let f1 := track (url apiConfig) responseTime false f in
  if Nat.ltb attempt RETRY_LIMIT && negb (aborted f1)
  then mkFan (<[i := mkTask apiConfig attempt Sleeping]> (tasks f1))
             (aborted f1) (settledCount f1) (resolved f1) (rejected f1)
             (fstats f1) (trace f1 ++ [Delay CONFIG.API.RETRY_DELAY])
  else settle i apiConfig attempt VNull f1.

(** [_tryApiWithRetry] from the moment [axios.get] settles. *)
Definition _tryApiWithRetry_reply (RETRY_LIMIT : nat) (i : nat)
    (apiConfig : api) (attempt : nat) (data : option js_value)
    (responseTime : Qc) (f : fan) : fan :=
  match extract_result apiConfig data with
  | Some r =>
      if ValidationService.isValidResponse r
      then settle i apiConfig attempt r
             (track (url apiConfig) responseTime true f)
      else _tryApiWithRetry_catch RETRY_LIMIT i apiConfig attempt
             responseTime f
  | None =>
      _tryApiWithRetry_catch RETRY_LIMIT i apiConfig attempt responseTime f
  end.

(** One network event.  A reply is for a request in flight, a timer for a
    descriptor in its retry delay (which then calls [_tryApiWithRetry]
    with [attempt + 1]); any other event finds nothing waiting for it. *)
Definition step (RETRY_LIMIT : nat) (requested : string) (f : fan)
    (ev : net_event) : fan :=
  match ev with
  | Reply i data responseTime =>
      match tasks f !! i with
      | Some (mkTask a attempt InFlight) =>
          _tryApiWithRetry_reply RETRY_LIMIT i a attempt data responseTime f
      | _ => f
      end
  | TimerFired i =>
      match tasks f !! i with
      | Some (mkTask a attempt Sleeping) =>
          _tryApiWithRetry_call requested i a (S attempt) f
      | _ => f
      end
  end.

(** [apis.map(api => this._tryApiWithRetry(url, api, 1, abortController))]
    with a new [AbortController]. *)
Definition launch (requested : string) (apis : list api)
    (st : gmap string stat) : fan :=
  foldl (fun f ia => _tryApiWithRetry_call requested ia.1 ia.2 1 f)
        (mkFan ((fun a => mkTask a 1 Created) <$> apis) false 0 None false
               st [])
        (imap pair apis).

Definition fan_out (RETRY_LIMIT : nat) (requested : string)
    (apis : list api) (st : gmap string stat) (evs : list net_event) : fan :=
  foldl (step RETRY_LIMIT requested) (launch requested apis st) evs.

(** [processUrl(url)] with the retry limit as a parameter: the outcome,
    the state it leaves and the effects of its fan-out.  The tracker and the
    effects include what the attempts still running when [processUrl]
    returns do afterwards, up to the end of the schedule. *)
Definition processUrl_with (RETRY_LIMIT : nat) (e : env)
    (requested : string) (s : state) : outcome * state * list effect :=
  let apis := FileService.loadApis e in
  if Nat.eqb (length apis) 0 then (Thrown NoUpstreamsConfigured, s, [])
  else
    let apis := sortApis (stats s) apis in
    let savedUrls := FileService.loadSavedUrls s in
    match cache_get (now_check e) savedUrls requested with
    | Some savedUrl => (CacheHit (response savedUrl), s, [])
    | None =>
        let f := fan_out RETRY_LIMIT requested apis (stats s) (arrivals e) in
        let s1 := mkState (fstats f) (urls_file s) (apis_dat s) in
        match resolved f with
        | Some result =>
            (Fresh result,
           FileService.saveUrl (write_ok e) (now_save e) requested result s1,
             trace f)
        | None =>
            if rejected f then (Thrown AllUpstreamsFailed, s1, trace f)
            else (Pending, s1, trace f)
        end
    end.

Definition processUrl (e : env) (requested : string) (s : state)
    : outcome * state * list effect :=
  processUrl_with CONFIG.API.RETRY_LIMIT e requested s.

End BypassService.

(** ** The [/admin/add-api] route *)

Inductive add_api_response :=
| InvalidData
| ExistsInGit
| ExistsInApisDat
| AddFailed
| ApiAdded (newApi : api).

(** The handler of [POST /admin/add-api] behind [AdminAuthMiddleware]; the
    body is [None] when the request has none. *)
Definition admin_add_api (e : env) (body : option api) (s : state)
    : add_api_response * state :=
  match body with
  | None => (InvalidData, s)
  | Some newApi =>
      if bool_decide (url newApi = EmptyString) then (InvalidData, s)
      else
        let gitApis := FileService.loadApis e in
        if existsb (same_url newApi) gitApis then (ExistsInGit, s)
        else
          let additionalApis := FileService.loadAdditionalApis s in
          if existsb (same_url newApi) additionalApis then (ExistsInApisDat, s)
          else
            let '(added, s') :=
            FileService.addAdditionalApi (write_ok e) newApi s in
            if added then (ApiAdded newApi, s') else (AddFailed, s')
  end.


(** ** Sample descriptors *)

(** Two descriptors of the raw-body kind, for the concrete cases below. *)
Definition sample_api : api :=
  mkApi "https://up.example/?u={url}" false EmptyString.

Definition sample_extra : api :=
  mkApi "https://extra.example/?u={url}" false EmptyString.

(** A request for [sample_url] that sees [sample_api] as the remote list,
    with a given network schedule. *)
Definition sample_url : string := "https://example.org/x".

Definition sample_env (evs : list net_event) : env :=
  mkEnv (FetchOk (Some [sample_api])) true 1700000001000 1700000002000 evs.

(** A state whose cache holds a one-second-old entry for [sample_url]. *)
Definition sample_cached : state :=
  mkState ∅
    (Some {[ sample_url := mkEntry (VString (js "ok")) 1700000000000 ]})
    None.

(** ** Readings of the tracker's state *)

(** Recorded attempts and recorded successes of an endpoint. *)
Definition attempts (st : gmap string stat) (apiUrl : string) : nat :=
  match st !! apiUrl with
  | Some s => totalCalls s
  | None => 0
  end.

Definition successes (st : gmap string stat) (apiUrl : string) : nat :=
  match st !! apiUrl with
  | Some s => successCalls s
  | None => 0
  end.

(** What every record written by [record] satisfies. *)
Definition stat_ok (s : stat) : Prop :=
  (successCalls s <= totalCalls s)%nat
  /\ (1 <= totalCalls s)%nat
  /\ (successCalls s = 0%nat -> totalTime s = 0%Qc).

Definition has_finite_score (st : gmap string stat) (a : api) : Prop :=
  exists q, ApiPerformanceTracker.getScore st (url a) = Fin q.

Definition has_infinite_score (st : gmap string stat) (a : api) : Prop :=
  ApiPerformanceTracker.getScore st (url a) = PInf.

(** ** Readings of a fan-out's effects *)

(** The upstream requests among the effects, in order. *)
Fixpoint net_calls (tr : list effect) : list (string * string) :=
  match tr with
  | [] => []
  | NetCall template requested :: tr' => (template, requested) :: net_calls tr'
  | _ :: tr' => net_calls tr'
  end.

Definition is_delay (ev : effect) : bool :=
  match ev with
  | Delay _ => true
  | _ => false
  end.

(** No descriptor of the fan-out waits in a retry delay, and every attempt
    number is at least the first. *)
Definition no_retry_pending (f : fan) : Prop :=
  forall i t, tasks f !! i = Some t ->
              t_phase t <> Sleeping /\ (1 <= t_attempt t)%nat.

Definition is_settled (t : task) : bool :=
  match t_phase t with
  | Settled _ => true
  | _ => false
  end.

(** What holds of a fan-out under the configured retry limit, from its
    launch on: every promise is waiting for its request or settled,
    [settledCount] counts the settled ones, and once all are settled without
    a valid result [reject] has been called. *)
Definition fan_ok (f : fan) : Prop :=
  (forall i t, tasks f !! i = Some t ->
               (t_phase t = InFlight \/ is_settled t = true)
               /\ (1 <= t_attempt t)%nat)
  /\ settledCount f = length (filter (fun t => is_settled t = true) (tasks f))
  /\ (resolved f = None -> settledCount f = length (tasks f) ->
      (0 < length (tasks f))%nat -> rejected f = true).

(** ** The specification's wording, for comparison *)


(** A whole-word, case-insensitive match as the specification words it: the
    keyword occurs in the text, letters compared without regard to case, and
    the occurrence has no word character right before it or right after
    it. *)
Fixpoint ci_strip_prefix (kw text : jsstring) : option jsstring :=
  match kw with
  | [] => Some text
  | k :: kw' =>
      match text with
      | [] => None
      | c :: text' =>
          if (canonicalize k =? canonicalize c)%N
          then ci_strip_prefix kw' text'
          else None
      end
  end.

Definition spec_occurs_here (kw : jsstring) (prev : option N)
    (text : jsstring) : bool :=
  negb (is_word_opt prev)
  && match ci_strip_prefix kw text with
     | Some rest => negb (is_word_opt (head rest))
     | None => false
     end.

Fixpoint spec_whole_word_from (kw : jsstring) (prev : option N)
    (text : jsstring) : bool :=
  spec_occurs_here kw prev text
  || match text with
     | [] => false
     | c :: rest => spec_whole_word_from kw (Some c) rest
     end.

Definition spec_whole_word (keyword : string) (text : jsstring) : bool :=
  spec_whole_word_from (js keyword) None text.

(** A keyword without pattern syntax that begins and ends with a word
    character. *)
Definition plain_keyword (kw : jsstring) : bool :=
  forallb (fun c => negb (c =? 46)%N && negb (is_unsupported_syntax c)) kw
  && is_word_opt (head kw) && is_word_opt (list.last kw).

(** [classify] as the specification words it, on a response text. *)
Definition spec_classify (text : jsstring) : bool :=
  if bool_decide (text = []) then false
  else if hex32_test text then true
  else negb (existsb (fun kw => spec_whole_word kw text)
                     CONFIG.API.ERROR_KEYWORDS)
       && existsb (fun kw => spec_whole_word kw text)
                  CONFIG.API.SUCCESS_KEYWORDS.

(** The upstream list as the specification words it: the remote list
    combined with the supplementary list. *)
Definition spec_combined_list (e : env) (s : state) : list api :=
  FileService.loadApis e ++ FileService.loadAdditionalApis s.

(** * The rest of the module *)

(** ** Keys of the routes *)

(** [CONFIG.API.KEY] and the key of [AdminAuthMiddleware]. *)
Definition API_KEY : string := "tekscripts".
Definition ADMIN_KEY : string := "admintekscripts".

(** ** StatusService *)

(** The document of [.status.json].  A field is [None] when the document
    lacks it; the code reads every field through [|| 0]. *)
Record status := mkStatus {
  totalRequests : option nat;
  successfulRequests : option nat;
  failedRequests : option nat
}.

(** [x || 0] on a counter. *)
Definition or_zero (x : option nat) : nat :=
  match x with
  | Some n => n
  | None => 0%nat
  end.

Module StatusService.

(** [getStatus()]: the parsed file, or the default object when the file
    cannot be read or parsed ([None]). *)
Definition getStatus (file : option status) : status :=
  match file with
  | Some st => st
  | None => mkStatus (Some 0%nat) (Some 0%nat) (Some 0%nat)
  end.

(** [saveStatus(status)]; a failed write is logged and the file stays. *)
Definition saveStatus (written : bool) (st : status) (file : option status)
    : option status :=
  if written then Some st else file.

Definition incrementTotal (written : bool) (file : option status)
    : option status :=
  let st := getStatus file in
  saveStatus written
    (mkStatus (Some (or_zero (totalRequests st) + 1)%nat)
              (successfulRequests st) (failedRequests st))
    file.

Definition incrementSuccess (written : bool) (file : option status)
    : option status :=
  let st := getStatus file in
  saveStatus written
    (mkStatus (totalRequests st)
              (Some (or_zero (successfulRequests st) + 1)%nat)
              (failedRequests st))
    file.

Definition incrementFailure (written : bool) (file : option status)
    : option status :=
  let st := getStatus file in
  saveStatus written
    (mkStatus (totalRequests st) (successfulRequests st)
              (Some (or_zero (failedRequests st) + 1)%nat))
    file.

End StatusService.

(** ** The routes *)

(** What the process holds: the state of the bypass service, the status
    file and the global [bypassEnabled]. *)
Record server := mkServer {
  core : state;
  status_file : option status;
  bypassEnabled : bool
}.

(** A [GET /bypass] request: the query parameters [key] and [url] ([None]
    when absent), what the outside world delivers while it is served, and
    whether the two writes of the status file succeed (the one of
    [incrementSuccess] or [incrementFailure], then the one of
    [incrementTotal]). *)
Record bypass_request := mkBypassRequest {
  q_key : option string;
  q_url : option string;
  r_env : env;
  r_outcome_written : bool;
  r_total_written : bool
}.

(** The answers of [GET /bypass]: 401, the two 400s, 503, 200 with the
    result (from the cache or new), 502 with the error; [Unanswered] while
    [processUrl] has not ended. *)
Inductive bypass_response :=
| InvalidKey
| UrlMissing
| UrlNotHttps
| Disabled
| Resolved (result : js_value) (cached : bool)
| BadGateway (err : error)
| Unanswered.

(** [ApiKeyMiddleware]: the answer it sends, or [None] when it calls
    [next()]. *)
Definition ApiKeyMiddleware (key url : option string)
    : option bypass_response :=
  if negb (bool_decide (key = Some API_KEY)) then Some InvalidKey
  else
    match url with
    | None => Some UrlMissing
    | Some u =>
        if bool_decide (u = EmptyString) then Some UrlMissing
        else if negb (String.prefix "https://" u) then Some UrlNotHttps
        else None
    end.

(** [AdminAuthMiddleware]: whether it calls [next()]. *)
Definition AdminAuthMiddleware (admin_key : option string) : bool :=
  bool_decide (admin_key = Some ADMIN_KEY).

(** The handler of [GET /bypass] behind [ApiKeyMiddleware]. *)
Definition bypass_route (rq : bypass_request) (srv : server)
    : bypass_response * server * list effect :=
  match ApiKeyMiddleware (q_key rq) (q_url rq) with
  | Some answer => (answer, srv, [])
  | None =>
      if negb (bypassEnabled srv) then (Disabled, srv, [])
      else
        let requested := match q_url rq with
                         | Some u => u
                         | None => EmptyString
                         end in
        let '(o, s', tr) :=
          BypassService.processUrl (r_env rq) requested (core srv) in
        let succeeded (result : js_value) (cached : bool) :=
          let st1 := StatusService.incrementSuccess (r_outcome_written rq)
                       (status_file srv) in
          let st2 := StatusService.incrementTotal (r_total_written rq) st1 in
          (Resolved result cached, mkServer s' st2 (bypassEnabled srv), tr) in
        match o with
        | CacheHit result => succeeded result true
        | Fresh result => succeeded result false
        | Thrown err =>
            let st1 := StatusService.incrementFailure (r_outcome_written rq)
                         (status_file srv) in
            let st2 := StatusService.incrementTotal (r_total_written rq) st1 in
            (BadGateway err, mkServer s' st2 (bypassEnabled srv), tr)
        | Pending =>
            (Unanswered, mkServer s' (status_file srv) (bypassEnabled srv), tr)
        end
  end.

(** The handler of [POST /admin/toggle-bypass]: the new flag, or [None] for
    the answers 401 and 400, which leave it. *)
Definition toggle_bypass (admin_key state_param : option string)
    (srv : server) : option bool * server :=
  if negb (AdminAuthMiddleware admin_key) then (None, srv)
  else
    match state_param with
    | Some p =>
        if String.eqb p "on"
        then (Some true, mkServer (core srv) (status_file srv) true)
        else if String.eqb p "off"
        then (Some false, mkServer (core srv) (status_file srv) false)
        else (None, srv)
    | None => (None, srv)
    end.

(** [POST /admin/add-api] with its middleware; [None] is the answer 401. *)
Definition add_api_route (admin_key : option string) (e : env)
    (body : option api) (srv : server)
    : option add_api_response * server :=
  if negb (AdminAuthMiddleware admin_key) then (None, srv)
  else
    let '(answer, s') := admin_add_api e body (core srv) in
    (Some answer, mkServer s' (status_file srv) (bypassEnabled srv)).

(** What reaches the module: the three routes that change its state and the
    timer that clears [urls.json]. *)
Inductive request :=
| GetBypass (rq : bypass_request)
| PostToggle (admin_key state_param : option string)
| PostAddApi (admin_key : option string) (e : env) (body : option api)
| FlushTimer (written : bool).

(** One request served from start to end. *)
Definition handle (srv : server) (r : request) : server :=
  match r with
  | GetBypass rq => (bypass_route rq srv).1.2
  | PostToggle admin_key state_param =>
      (toggle_bypass admin_key state_param srv).2
  | PostAddApi admin_key e body => (add_api_route admin_key e body srv).2
  | FlushTimer written =>
      mkServer (FileService.clearSavedUrls written (core srv))
               (status_file srv) (bypassEnabled srv)
  end.

Definition serve (reqs : list request) (srv : server) : server :=
  foldl handle srv reqs.

(** The server at start: nothing recorded, no file yet, bypass enabled. *)
Definition initial_server : server :=
  mkServer (mkState ∅ None None) None true.

(** ** Steps of a fan-out, by kind *)

(** The descriptor in slot [i] goes into its retry delay. *)
Definition sleeping (i : nat) (a : api) (attempt : nat) (f : fan) : fan :=
  mkFan (<[i := mkTask a attempt Sleeping]> (tasks f)) (aborted f)
        (settledCount f) (resolved f) (rejected f) (fstats f)
        (trace f ++ [Delay CONFIG.API.RETRY_DELAY]).

(** The request of the descriptor in slot [i] is sent. *)
Definition sending (requested : string) (i : nat) (a : api) (attempt : nat)
    (f : fan) : fan :=
  mkFan (<[i := mkTask a attempt InFlight]> (tasks f)) (aborted f)
        (settledCount f) (resolved f) (rejected f) (fstats f)
        (trace f ++ [NetCall (url a) requested]).

(** What one network event does to a fan-out when it finds something
    waiting for it: a valid reply, a failed reply followed by the retry
    delay, a failed reply that ends the attempts, the end of a retry delay
    after the abort, the end of a retry delay with a new request. *)
Inductive fan_step (RETRY_LIMIT : nat) (requested : string) (f : fan)
    : net_event -> fan -> Prop :=
| step_valid i a attempt data responseTime r :
    tasks f !! i = Some (mkTask a attempt InFlight) ->
    BypassService.extract_result a data = Some r ->
    ValidationService.isValidResponse r = true ->
    fan_step RETRY_LIMIT requested f (Reply i data responseTime)
      (settle i a attempt r (track (url a) responseTime true f))
| step_retry i a attempt data responseTime :
    tasks f !! i = Some (mkTask a attempt InFlight) ->
    (attempt < RETRY_LIMIT)%nat ->
    aborted f = false ->
    fan_step RETRY_LIMIT requested f (Reply i data responseTime)
      (sleeping i a attempt (track (url a) responseTime false f))
| step_failed i a attempt data responseTime :
    tasks f !! i = Some (mkTask a attempt InFlight) ->
    fan_step RETRY_LIMIT requested f (Reply i data responseTime)
      (settle i a attempt VNull (track (url a) responseTime false f))
| step_wake_aborted i a attempt :
    tasks f !! i = Some (mkTask a attempt Sleeping) ->
    aborted f = true ->
    fan_step RETRY_LIMIT requested f (TimerFired i)
      (settle i a (S attempt) VNull f)
| step_wake i a attempt :
    tasks f !! i = Some (mkTask a attempt Sleeping) ->
    aborted f = false ->
    fan_step RETRY_LIMIT requested f (TimerFired i)
      (sending requested i a (S attempt) f).

(** ** Counting effects and calls *)






(** An effect that concerns a descriptor of the list [ranked] and carries
    the requested url. *)
Definition effect_in_list (requested : string) (ranked : list api)
    (ev : effect) : Prop :=
  match ev with
  | NetCall template target =>
      target = requested /\ exists a, a ∈ ranked /\ url a = template
  | Recorded apiUrl _ => exists a, a ∈ ranked /\ url a = apiUrl
  | Delay ms => ms = CONFIG.API.RETRY_DELAY
  end.






(** [b] does not have a strictly smaller score than [a]. *)
Definition ranks_before (st : gmap string stat) (a b : api) : Prop :=
  num_lt (ApiPerformanceTracker.getScore st (url b))
         (ApiPerformanceTracker.getScore st (url a)) = false.

#[global] Instance jsnum_eq_dec : EqDecision jsnum.
Proof. solve_decision. Defined.

(** Two texts that differ in the case of ASCII letters only. *)
Definition same_up_to_case (t1 t2 : jsstring) : Prop :=
  Forall2 (fun c1 c2 => canonicalize c1 = canonicalize c2) t1 t2.

(** ** Readings of the server's files *)

(** Every response kept in [urls.json] passes the classifier; every key of
    it starts with ["https://"]. *)
Definition cache_valid (s : state) : Prop :=
  forall key entry,
    FileService.loadSavedUrls s !! key = Some entry ->
    ValidationService.isValidResponse (response entry) = true.

Definition cache_keys_https (s : state) : Prop :=
  forall key entry,
    FileService.loadSavedUrls s !! key = Some entry ->
    String.prefix "https://" key = true.

(** The counters of the status file add up. *)
Definition status_adds_up (file : option status) : Prop :=
  let st := StatusService.getStatus file in
  or_zero (totalRequests st)
  = (or_zero (successfulRequests st) + or_zero (failedRequests st))%nat.

(** * Properties *)

(** ** The tracker *)

Local Open Scope nat_scope.

Lemma record_all_snoc calls c :
  record_all (calls ++ [c]) = apply_record (record_all calls) c.
Proof. unfold record_all. by rewrite foldl_app. Qed.

Lemma record_lookup_same apiUrl responseTime success (st : gmap string stat) :
  ApiPerformanceTracker.record apiUrl responseTime success st !! apiUrl
  = Some (let s0 := default (mkStat 0 0 0%Qc) (st !! apiUrl) in
          mkStat (S (totalCalls s0))
                 (if success then S (successCalls s0) else successCalls s0)
                 (if success then (totalTime s0 + responseTime)%Qc
                  else totalTime s0)).
Proof.
  unfold ApiPerformanceTracker.record. rewrite lookup_insert_eq.
  destruct (st !! apiUrl) as [s|], success; reflexivity.
Qed.

Lemma record_lookup_other apiUrl other responseTime success
    (st : gmap string stat) :
  apiUrl ≠ other ->
  ApiPerformanceTracker.record apiUrl responseTime success st !! other
  = st !! other.
Proof.
  intros Hne. unfold ApiPerformanceTracker.record.
  by rewrite lookup_insert_ne.
Qed.

Lemma record_keeps_stat_ok apiUrl responseTime success
    (st : gmap string stat) :
  (forall u s, st !! u = Some s -> stat_ok s) ->
  forall u s,
    ApiPerformanceTracker.record apiUrl responseTime success st !! u = Some s ->
    stat_ok s.
Proof.
  intros Hok u s. destruct (decide (apiUrl = u)) as [->|Hne].
  - rewrite record_lookup_same. intros [= <-].
    destruct (st !! u) as [s0|] eqn:Hs0; simpl.
    + destruct (Hok _ _ Hs0) as (Hle & Hpos & Hzero).
      destruct success; repeat split; simpl; try lia; auto.
    + destruct success; repeat split; simpl; try lia; auto.
  - rewrite record_lookup_other by done. apply Hok.
Qed.

Lemma record_all_stat_ok calls u s :
  record_all calls !! u = Some s -> stat_ok s.
Proof.
  revert u s. induction calls as [|c calls IH] using rev_ind; intros u s.
  - unfold record_all; simpl. by rewrite lookup_empty.
  - rewrite record_all_snoc. destruct c as [[apiUrl responseTime] success].
    simpl. by apply record_keeps_stat_ok.
Qed.



(** ** The score *)

Ltac qc_eq :=
  vm_compute; apply (f_equal Fin); apply Qc_is_canon; reflexivity.

Lemma qnat_ne0 n : n ≠ 0 -> qnat n ≠ 0%Qc.
Proof.
  unfold qnat. intros Hn E. rewrite <- Z2Qc_inj_0 in E.
  apply Z2Qc_inj in E. lia.
Qed.

Lemma Qcdiv_ne0 (x y : Qc) : x ≠ 0%Qc -> y ≠ 0%Qc -> (x / y)%Qc ≠ 0%Qc.
Proof.
  intros Hx Hy E. unfold Qcdiv in E.
  destruct (Qcmult_integral _ _ E) as [E'|E']; [done|].
  pose proof (Qcmult_inv_r y Hy) as H1. rewrite E', Qcmult_0_r in H1.
  discriminate H1.
Qed.

Lemma getScore_unknown (st : gmap string stat) apiUrl :
  attempts st apiUrl = 0 -> ApiPerformanceTracker.getScore st apiUrl = PInf.
Proof.
  unfold attempts, ApiPerformanceTracker.getScore.
  destruct (st !! apiUrl) as [s|]; [|done]. by intros ->.
Qed.

Lemma getScore_no_success (st : gmap string stat) apiUrl s :
  st !! apiUrl = Some s -> totalCalls s ≠ 0 -> successCalls s = 0 ->
  totalTime s = 0%Qc ->
  ApiPerformanceTracker.getScore st apiUrl
  = Fin (qz CONFIG.SERVER.TIMEOUT / Q2Qc (1 # 10))%Qc.
Proof.
  intros Hs Ht Hsucc Htime. unfold ApiPerformanceTracker.getScore.
  rewrite Hs. destruct (Nat.eqb_spec (totalCalls s) 0) as [|_]; [done|].
  rewrite Hsucc, Htime. unfold num_div at 2.
  rewrite (bool_decide_eq_true_2 (qnat 0 = 0%Qc)) by apply Z2Qc_inj_0.
  rewrite (bool_decide_eq_true_2 (0%Qc = 0%Qc)) by done.
  unfold num_or at 2; simpl num_truthy; cbv iota.
  unfold num_div at 2.
  rewrite (bool_decide_eq_false_2 (qnat (totalCalls s) = 0%Qc))
    by by apply qnat_ne0.
  replace (qnat 0 / qnat (totalCalls s))%Qc with 0%Qc
    by (unfold Qcdiv; change (qnat 0) with (Qc_of_Z 0);
        by rewrite Z2Qc_inj_0, Qcmult_0_l).
  reflexivity.
Qed.

Lemma getScore_with_success (st : gmap string stat) apiUrl s :
  st !! apiUrl = Some s -> totalCalls s ≠ 0 -> successCalls s ≠ 0 ->
  ApiPerformanceTracker.getScore st apiUrl
  = Fin ((if bool_decide (totalTime s = 0%Qc) then qz CONFIG.SERVER.TIMEOUT
          else totalTime s / qnat (successCalls s))
         / (qnat (successCalls s) / qnat (totalCalls s)))%Qc.
Proof.
  intros Hs Ht Hsucc. unfold ApiPerformanceTracker.getScore.
  rewrite Hs. destruct (Nat.eqb_spec (totalCalls s) 0) as [|_]; [done|].
  pose proof (qnat_ne0 _ Ht) as Ht'. pose proof (qnat_ne0 _ Hsucc) as Hs'.
  pose proof (Qcdiv_ne0 _ _ Hs' Ht') as Hrate.
  unfold num_div at 2 3.
  rewrite (bool_decide_eq_false_2 (qnat (successCalls s) = 0%Qc)) by done.
  rewrite (bool_decide_eq_false_2 (qnat (totalCalls s) = 0%Qc)) by done.
  unfold num_or, num_truthy.
  rewrite (bool_decide_eq_false_2 _ Hrate). simpl negb. cbv iota.
  destruct (decide (totalTime s = 0%Qc)) as [Hz|Hnz].
  - rewrite (bool_decide_eq_true_2 _ Hz).
    rewrite bool_decide_eq_true_2
      by (rewrite Hz; unfold Qcdiv; apply Qcmult_0_l).
    simpl negb; cbv iota. unfold num_div.
    by rewrite (bool_decide_eq_false_2 _ Hrate).
  - rewrite (bool_decide_eq_false_2 _ Hnz).
    rewrite (bool_decide_eq_false_2 _ (Qcdiv_ne0 _ _ Hnz Hs')).
    simpl negb; cbv iota. unfold num_div.
    by rewrite (bool_decide_eq_false_2 _ Hrate).
Qed.


(** The same [||] makes the constant replace an average latency of zero:
    one success recorded with a latency of 0 ms scores 60000. *)
Example getScore_zero_latency :
  ApiPerformanceTracker.getScore (record_all [("u"%string, qz 0, true)]) "u"
  = Fin (qz 60000).
Proof. qc_eq. Qed.



(** ** Ranking *)

Lemma score_finite_or_infinite calls (a : api) :
  has_finite_score (record_all calls) a
  \/ has_infinite_score (record_all calls) a.
Proof.
  unfold has_finite_score, has_infinite_score.
  destruct (record_all calls !! url a) as [s|] eqn:E.
  - left. destruct (record_all_stat_ok _ _ _ E) as (_ & Hpos & Hz).
    destruct (decide (successCalls s = 0)) as [Hs|Hs].
    + eexists. eapply getScore_no_success; eauto. lia.
    + eexists. eapply getScore_with_success; eauto. lia.
  - right. apply getScore_unknown. unfold attempts. by rewrite E.
Qed.


Section Ranking.

Variable st : gmap string stat.

Lemma sort_insert_Forall (P : api -> Prop) a l :
  P a -> Forall P l -> Forall P (sort_insert (compareApis st) a l).
Proof.
  intros Ha. induction 1 as [|b l Hb Hl IH]; simpl.
  - by constructor.
  - destruct (num_pos (compareApis st a b)); repeat constructor; auto.
Qed.




End Ranking.



(** ** The classifier *)

(** Every configured keyword lies in the pattern fragment of
    [compile_atoms]. *)
Lemma keywords_compile :
  forallb (fun kw => bool_decide (is_Some (compile_atoms (js kw))))
          (CONFIG.API.ERROR_KEYWORDS ++ CONFIG.API.SUCCESS_KEYWORDS) = true.
Proof. vm_compute. reflexivity. Qed.

Lemma hex32_nonempty (text : jsstring) : hex32_test text = true -> text ≠ [].
Proof.
  intros H ->. vm_compute in H. discriminate.
Qed.

(** C3.  A response text of exactly 32 hexadecimal digits is valid, whatever
    the error and success keywords say about it; so is every truthy response
    whose text form is such a token. *)
Theorem hex32_always_valid :
  (forall text : jsstring,
     hex32_test text = true ->
     ValidationService.isValidResponse (VString text) = true)
  /\ (forall v : js_value,
        truthy v = true ->
        hex32_test (ValidationService._toString v) = true ->
        ValidationService.isValidResponse v = true).
Proof.
  split.
  - intros text H. unfold ValidationService.isValidResponse. simpl.
    rewrite (bool_decide_eq_false_2 _ (hex32_nonempty _ H)). simpl.
    by rewrite H.
  - intros v Hv H. unfold ValidationService.isValidResponse.
    by rewrite Hv, H.
Qed.

Lemma hex32_always_valid_witness :
  ValidationService.isSuccessResponse
    (VString (js "0123456789abcdefABCDEF0123456789")) = false
  /\ ValidationService.isValidResponse
       (VString (js "0123456789abcdefABCDEF0123456789")) = true.
Proof.
  split; [vm_compute; reflexivity|].
  apply (proj1 hex32_always_valid (js "0123456789abcdefABCDEF0123456789")).
  vm_compute. reflexivity.
Defined.

(** The classification on the code's own terms: a falsy response is invalid,
    and a non-empty text that is not a 32-digit token is valid exactly when
    no error keyword and some success keyword passes the pattern test. *)
Lemma isValidResponse_by_pattern_tests :
  (forall v, truthy v = false -> ValidationService.isValidResponse v = false)
  /\ (forall text : jsstring,
        text ≠ [] -> hex32_test text = false ->
        ValidationService.isValidResponse (VString text)
        = negb (existsb (fun kw => keyword_test kw text)
                        CONFIG.API.ERROR_KEYWORDS)
          && existsb (fun kw => keyword_test kw text)
                     CONFIG.API.SUCCESS_KEYWORDS).
Proof.
  split.
  - intros v Hv. unfold ValidationService.isValidResponse. by rewrite Hv.
  - intros text Hne Hhex.
    unfold ValidationService.isValidResponse,
      ValidationService.isErrorResponse, ValidationService.isSuccessResponse.
    simpl. rewrite (bool_decide_eq_false_2 _ Hne). simpl. by rewrite Hhex.
Qed.

(** *** The pattern test and the whole-word match *)

Lemma canonicalize_word (k c : N) :
  canonicalize k = canonicalize c -> is_word_char k = is_word_char c.
Proof.
  unfold canonicalize, is_word_char, in_range.
  repeat match goal with
         | |- context [(?a <=? ?b)%N] => destruct (N.leb_spec a b)
         | |- context [(?a =? ?b)%N] => destruct (N.eqb_spec a b)
         end; simpl; intros; try reflexivity; lia.
Qed.

Lemma compile_atoms_plain (kw : jsstring) :
  forallb (fun c => negb (c =? 46)%N && negb (is_unsupported_syntax c)) kw
  = true ->
  compile_atoms kw = Some (AChar <$> kw).
Proof.
  induction kw as [|c kw IH]; [done|].
  simpl. intros [[Hdot Hsyn]%andb_prop Hrest]%andb_prop.
  apply negb_true_iff in Hdot, Hsyn.
  rewrite Hsyn, (IH Hrest), Hdot. reflexivity.
Qed.

Lemma match_here_plain (kw : jsstring) (prev : option N) (text : jsstring) :
  match_here (AChar <$> kw) prev text
  = match ci_strip_prefix kw text with
    | Some rest =>
        xorb (default (is_word_opt prev) (is_word_char <$> list.last kw))
             (is_word_opt (head rest))
    | None => false
    end.
Proof.
  revert prev text. induction kw as [|k kw IH]; intros prev text.
  - reflexivity.
  - destruct text as [|c text]; [done|].
    rewrite fmap_cons. simpl.
    destruct (N.eqb_spec (canonicalize k) (canonicalize c)) as [E|_]; [|done].
    simpl. rewrite IH.
    destruct (ci_strip_prefix kw text) as [rest|]; [|done].
    f_equal. destruct kw as [|k' kw].
    + simpl. symmetry. by apply canonicalize_word.
    + rewrite last_cons_cons.
      destruct (list.last (k' :: kw)) eqn:El; [done|].
      by apply last_None in El.
Qed.

Lemma occurs_here_plain (kw : jsstring) (prev : option N) (text : jsstring) :
  is_word_opt (head kw) = true -> is_word_opt (list.last kw) = true ->
  boundary prev (head text) && match_here (AChar <$> kw) prev text
  = spec_occurs_here kw prev text.
Proof.
  intros Hhead Hlast. rewrite match_here_plain. unfold spec_occurs_here.
  destruct kw as [|k kw]; [done|].
  destruct text as [|c text]; simpl; [by rewrite !andb_false_r|].
  destruct (N.eqb_spec (canonicalize k) (canonicalize c)) as [E|_];
    [|by rewrite !andb_false_r].
  destruct (ci_strip_prefix kw text) as [rest|]; [|by rewrite !andb_false_r].
  simpl in Hhead. unfold boundary. simpl.
  rewrite <- (canonicalize_word _ _ E), Hhead.
  destruct (list.last (k :: kw)) as [l|]; [|done].
  simpl in Hlast |- *. rewrite Hlast.
  by destruct (is_word_opt prev), (is_word_opt (head rest)).
Qed.

(** For a keyword without pattern syntax and with word characters at both
    ends, the code's pattern test is the whole-word match. *)
Lemma keyword_test_whole_word (keyword : string) (text : jsstring) :
  plain_keyword (js keyword) = true ->
  keyword_test keyword text = spec_whole_word keyword text.
Proof.
  unfold plain_keyword, keyword_test, spec_whole_word.
  intros [[Hplain Hhead]%andb_prop Hlast]%andb_prop.
  rewrite (compile_atoms_plain _ Hplain).
  generalize (@None N). induction text as [|c text IH]; intros prev.
  - change (boundary prev (head [])
            && match_here (AChar <$> js keyword) prev [] || false
            = spec_occurs_here (js keyword) prev [] || false).
    by rewrite (occurs_here_plain _ prev [] Hhead Hlast).
  - change (boundary prev (head (c :: text))
            && match_here (AChar <$> js keyword) prev (c :: text)
            || search_from (AChar <$> js keyword) (Some c) text
            = spec_occurs_here (js keyword) prev (c :: text)
              || spec_whole_word_from (js keyword) (Some c) text).
    by rewrite (occurs_here_plain _ prev (c :: text) Hhead Hlast), IH.
Qed.

(** Every configured keyword but the one with dots is of that kind. *)
Lemma configured_keywords_plain :
  forallb (fun kw => plain_keyword (js kw)) CONFIG.API.ERROR_KEYWORDS = true
  /\ forallb
       (fun kw =>
          plain_keyword (js kw)
          || String.eqb kw
               "You have been authenticated. Please proceed back to the application.")
       CONFIG.API.SUCCESS_KEYWORDS = true.
Proof. split; vm_compute; reflexivity. Qed.

Lemma existsb_agree {A} (f g : A -> bool) (l : list A) :
  Forall (fun x => f x = g x) l -> existsb f l = existsb g l.
Proof. induction 1 as [|x l Hx _ IH]; [done|]. simpl. by rewrite Hx, IH. Qed.

(** On every text where the pattern of the dotted keyword and its whole-word
    match agree, the code classifies as the specification words it. *)
Lemma classify_agrees_outside_dotted_keyword (text : jsstring) :
  keyword_test
    "You have been authenticated. Please proceed back to the application."
    text
  = spec_whole_word
      "You have been authenticated. Please proceed back to the application."
      text ->
  ValidationService.isValidResponse (VString text) = spec_classify text.
Proof.
  intros Hdot. unfold spec_classify.
  destruct (decide (text = [])) as [->|Hne]; [done|].
  rewrite (bool_decide_eq_false_2 _ Hne).
  destruct (hex32_test text) eqn:Hhex.
  { unfold ValidationService.isValidResponse. simpl.
    by rewrite (bool_decide_eq_false_2 _ Hne), Hhex. }
  rewrite (proj2 isValidResponse_by_pattern_tests text Hne Hhex).
  destruct configured_keywords_plain as [Herr Hsucc].
  f_equal; [f_equal|]; apply existsb_agree.
  - apply Forall_forall. intros kw Hkw.
    apply keyword_test_whole_word.
    rewrite forallb_forall in Herr. by apply Herr.
  - apply Forall_forall. intros kw Hkw.
    rewrite forallb_forall in Hsucc.
    pose proof (Hsucc kw Hkw) as Hk.
    simpl in Hk.
    apply orb_prop in Hk as [Hk|Hk%String.eqb_eq].
    + by apply keyword_test_whole_word.
    + by subst kw.
Qed.

(** C5, where the code leaves the claim.  The response that is exactly the
    configured success keyword
    ["You have been authenticated. Please proceed back to the application."]
    holds that keyword as a whole word and holds no error keyword, so the
    claim makes it valid; the code's pattern for this keyword ends in a dot
    followed by a word boundary, which the end of the text does not give, and
    the response is classified invalid. *)
Theorem dotted_keyword_not_recognised :
  let text :=
    js "You have been authenticated. Please proceed back to the application." in
  hex32_test text = false
  /\ existsb (fun kw => spec_whole_word kw text) CONFIG.API.ERROR_KEYWORDS
     = false
  /\ spec_whole_word
       "You have been authenticated. Please proceed back to the application."
       text = true
  /\ spec_classify text = true
  /\ keyword_test
       "You have been authenticated. Please proceed back to the application."
       text = false
  /\ ValidationService.isSuccessResponse (VString text) = false
  /\ ValidationService.isValidResponse (VString text) = false.
Proof. vm_compute. repeat split; reflexivity. Qed.

(** ** The resolver: upstream list and cache *)

Import BypassService.

Lemma processUrl_no_upstreams RETRY_LIMIT e requested s :
  (processUrl_with RETRY_LIMIT e requested s).1.1 = Thrown NoUpstreamsConfigured
  <-> FileService.loadApis e = [].
Proof.
  unfold processUrl_with. split.
  - destruct (FileService.loadApis e) as [|a apis]; [done|]. simpl.
    destruct (cache_get _ _ _); [done|].
    destruct (resolved _); [done|]. by destruct (rejected _).
  - by intros ->.
Qed.

(** C1, what fails: with the remote fetch failed and one descriptor in the
    supplementary file, the combined list is not empty and [processUrl]
    still throws for want of upstreams. *)
Lemma supplementary_list_not_consulted :
  let e := mkEnv FetchFailed true 0 0 [] in
  let s := mkState ∅ None (Some (Some [sample_extra])) in
  spec_combined_list e s ≠ []
  /\ (processUrl e "https://example.org/x" s).1.1
     = Thrown NoUpstreamsConfigured.
Proof. split; [discriminate|reflexivity]. Qed.

(** C1, as the code has it.  [processUrl] takes its upstream list from the
    remote fetch alone: it throws for want of upstreams exactly when the
    fetched list is empty, which is the case when the fetch fails; and the
    content of the supplementary file changes neither its outcome nor its
    effects nor the tracker and the cache it leaves. *)
Theorem processUrl_uses_remote_list_only (e : env) (requested : string)
    (s : state) :
  ((processUrl e requested s).1.1 = Thrown NoUpstreamsConfigured
   <-> FileService.loadApis e = [])
  /\ (remote e = FetchFailed ->
      processUrl e requested s = (Thrown NoUpstreamsConfigured, s, []))
  /\ (forall dat,
        let r := processUrl e requested s in
        let r' := processUrl e requested
                    (mkState (stats s) (urls_file s) dat) in
        r'.1.1 = r.1.1 /\ r'.2 = r.2
        /\ stats r'.1.2 = stats r.1.2
        /\ urls_file r'.1.2 = urls_file r.1.2
        /\ apis_dat r'.1.2 = dat).
Proof.
  split; [apply processUrl_no_upstreams|]. split.
  - intros Hr. unfold processUrl, processUrl_with, FileService.loadApis.
    by rewrite Hr.
  - intros dat. unfold processUrl, processUrl_with. simpl.
    destruct (FileService.loadApis e) as [|a apis]; [done|]. simpl.
    unfold FileService.saveUrl, FileService.loadSavedUrls; simpl.
    destruct (cache_get _ _ _); [done|].
    destruct (resolved _); [by destruct (write_ok e)|].
    by destruct (rejected _).
Qed.

Lemma processUrl_uses_remote_list_only_witness :
  processUrl (mkEnv FetchFailed true 0 0 []) sample_url
    (mkState ∅ None (Some (Some [sample_extra])))
  = (Thrown NoUpstreamsConfigured,
     mkState ∅ None (Some (Some [sample_extra])), []).
Proof.
  apply (processUrl_uses_remote_list_only (mkEnv FetchFailed true 0 0 [])).
  reflexivity.
Defined.

(** C6, what fails: with an entry one second old in the cache and an empty
    remote list, the cache check is a hit and [processUrl] throws for want of
    upstreams instead of returning the entry. *)
Lemma cache_hit_behind_upstream_check :
  let e := mkEnv (FetchOk (Some [])) true 1700000001000 1700000001000 [] in
  let s := mkState ∅
             (Some {[ "https://example.org/x"%string
                      := mkEntry (VString (js "ok")) 1700000000000 ]})
             None in
  cache_get (now_check e) (FileService.loadSavedUrls s)
            "https://example.org/x"
  = Some (mkEntry (VString (js "ok")) 1700000000000)
  /\ (processUrl e "https://example.org/x" s).1.1
     = Thrown NoUpstreamsConfigured.
Proof. split; vm_compute; reflexivity. Qed.

(** C6, as the code has it.  The cache check misses exactly when the entry
    is absent or at least as old as the ten-minute window; when it hits and
    the fetched upstream list is not empty, [processUrl] returns the cached
    response as a cache hit, with no upstream request and nothing
    changed. *)
Theorem cache_hit_skips_fan_out :
  (forall now (savedUrls : gmap string cache_entry) requested,
     cache_get now savedUrls requested = None
     <-> savedUrls !! requested = None
         \/ exists entry, savedUrls !! requested = Some entry
                          /\ (now - timestamp entry >= 600000)%Z)
  /\ (forall e requested s entry,
        FileService.loadApis e ≠ [] ->
        cache_get (now_check e) (FileService.loadSavedUrls s) requested
        = Some entry ->
        processUrl e requested s = (CacheHit (response entry), s, [])).
Proof.
  split.
  - intros now savedUrls requested. unfold cache_get.
    change CONFIG.CACHE_DURATION with 600000%Z.
    destruct (savedUrls !! requested) as [entry|]; [|by split; [left|]].
    destruct (Z.ltb_spec (now - timestamp entry) 600000) as [Hlt|Hge].
    + split; [done|]. intros [|(entry' & [= <-] & Hge)]; [done|lia].
    + split; [|done]. intros _. right. exists entry. split; [done|lia].
  - intros e requested s entry Hne Hhit.
    unfold processUrl, processUrl_with.
    destruct (FileService.loadApis e) as [|a apis]; [done|]. simpl.
    by rewrite Hhit.
Qed.

Lemma cache_hit_skips_fan_out_witness :
  processUrl (sample_env []) sample_url sample_cached
  = (CacheHit (VString (js "ok")), sample_cached, []).
Proof.
  apply (proj2 cache_hit_skips_fan_out (sample_env []) sample_url
           sample_cached (mkEntry (VString (js "ok")) 1700000000000)).
  - discriminate.
  - vm_compute. reflexivity.
Defined.

(** A resolution that succeeds: the first valid reply is returned, the
    cache gets the entry with the clock of [saveUrl], the tracker the
    attempt. *)
Example fresh_resolution_writes_cache :
  let r := processUrl
             (mkEnv (FetchOk (Some [mkApi "https://up.example/?u={url}" true
                                          "key"]))
                    true 1700000001000 1700000002000
                    [Reply 0 (Some (VObject [("key"%string,
                                              VString (js "loadstring ok"))]
                                      (js "{}")))
                           (qz 35)])
             "https://example.org/x" (mkState ∅ None None) in
  r.1.1 = Fresh (VString (js "loadstring ok"))
  /\ FileService.loadSavedUrls r.1.2 !! "https://example.org/x"%string
     = Some (mkEntry (VString (js "loadstring ok")) 1700000002000)
  /\ attempts (stats r.1.2) "https://up.example/?u={url}" = 1%nat
  /\ successes (stats r.1.2) "https://up.example/?u={url}" = 1%nat.
Proof. vm_compute. repeat split; reflexivity. Qed.

(** C9.  When [processUrl] throws, for want of upstreams or because every
    upstream failed, [urls.json] is what it was before the call; a call that
    leaves [urls.json] changed has returned a new result. *)
Theorem failed_resolution_leaves_cache (e : env) (requested : string)
    (s : state) :
  (forall err,
     (processUrl e requested s).1.1 = Thrown err ->
     urls_file (processUrl e requested s).1.2 = urls_file s
     /\ forall key,
          FileService.loadSavedUrls (processUrl e requested s).1.2 !! key
          = FileService.loadSavedUrls s !! key)
  /\ (urls_file (processUrl e requested s).1.2 <> urls_file s ->
      exists result, (processUrl e requested s).1.1 = Fresh result).
Proof.
  unfold processUrl, processUrl_with.
  destruct (FileService.loadApis e) as [|a apis]; [by split|]. simpl.
  destruct (cache_get _ _ _); [by split|].
  destruct (resolved _) as [result|]; [split; [done|by exists result]|].
  destruct (rejected _); by split.
Qed.

Lemma failed_resolution_leaves_cache_witness :
  urls_file
    (processUrl
       (sample_env [Reply 0 (Some (VString (js "error 404"))) (qz 35)])
       sample_url (mkState ∅ None None)).1.2
  = None.
Proof.
  apply (proj1 (failed_resolution_leaves_cache
                  (sample_env
                     [Reply 0 (Some (VString (js "error 404"))) (qz 35)])
                  sample_url (mkState ∅ None None))
           AllUpstreamsFailed).
  vm_compute. reflexivity.
Defined.

(** ** The supplementary list *)







(** ** The fan-out under the configured retry limit *)

Lemma firstValid_then_fields result f :
  tasks (firstValid_then result f) = tasks f
  /\ fstats (firstValid_then result f) = fstats f
  /\ trace (firstValid_then result f) = trace f.
Proof.
  unfold firstValid_then.
  destruct (_ && _ && _); [done|]. by destruct (_ && _).
Qed.

Lemma settle_fields i a attempt result f :
  tasks (settle i a attempt result f)
  = <[i := mkTask a attempt (Settled result)]> (tasks f)
  /\ fstats (settle i a attempt result f) = fstats f
  /\ trace (settle i a attempt result f) = trace f.
Proof.
  unfold settle.
  destruct (firstValid_then_fields result
              (mkFan (<[i := mkTask a attempt (Settled result)]> (tasks f))
                     (aborted f) (settledCount f) (resolved f) (rejected f)
                     (fstats f) (trace f))) as (-> & -> & ->).
  done.
Qed.

Lemma catch_without_retry i a attempt responseTime f :
  1 <= attempt ->
  _tryApiWithRetry_catch CONFIG.API.RETRY_LIMIT i a attempt responseTime f
  = settle i a attempt VNull (track (url a) responseTime false f).
Proof.
  intros Ha. unfold _tryApiWithRetry_catch.
  change CONFIG.API.RETRY_LIMIT with 1.
  destruct (Nat.ltb_spec attempt 1) as [Hlt|_]; [lia|]. reflexivity.
Qed.

Lemma reply_without_retry i a attempt data responseTime f :
  1 <= attempt ->
  exists result success,
    _tryApiWithRetry_reply CONFIG.API.RETRY_LIMIT i a attempt data
      responseTime f
    = settle i a attempt result (track (url a) responseTime success f).
Proof.
  intros Ha. unfold _tryApiWithRetry_reply.
  destruct (extract_result a data) as [r|].
  - destruct (ValidationService.isValidResponse r).
    + by exists r, true.
    + exists VNull, false. by apply catch_without_retry.
  - exists VNull, false. by apply catch_without_retry.
Qed.

Lemma net_calls_app tr1 tr2 :
  net_calls (tr1 ++ tr2) = net_calls tr1 ++ net_calls tr2.
Proof.
  induction tr1 as [|ev tr1 IH]; [done|].
  destruct ev; simpl; by rewrite IH.
Qed.

Lemma step_without_retry requested f ev :
  no_retry_pending f ->
  let f' := step CONFIG.API.RETRY_LIMIT requested f ev in
  no_retry_pending f'
  /\ net_calls (trace f') = net_calls (trace f)
  /\ (forallb (fun x => negb (is_delay x)) (trace f) = true ->
      forallb (fun x => negb (is_delay x)) (trace f') = true).
Proof.
  intros Hinv. destruct ev as [i data responseTime|i]; simpl.
  - destruct (tasks f !! i) as [[a attempt ph]|] eqn:Ei; [|done].
    destruct ph; try done.
    destruct (Hinv _ _ Ei) as [_ Hatt]. simpl in Hatt.
    destruct (reply_without_retry i a attempt data responseTime f Hatt)
      as (result & success & ->).
    destruct (settle_fields i a attempt result
                (track (url a) responseTime success f)) as (Et & _ & Etr).
    split; [|split].
    + intros j t. rewrite Et. simpl.
      intros [(-> & <- & _)|(_ & Hj)]%list_lookup_insert_Some.
      * by split.
      * by apply (Hinv j).
    + rewrite Etr. simpl. rewrite net_calls_app. simpl. by rewrite app_nil_r.
    + rewrite Etr. simpl. rewrite forallb_app. simpl.
      intros ->. reflexivity.
  - destruct (tasks f !! i) as [[a attempt ph]|] eqn:Ei; [|done].
    destruct ph; try done.
    by destruct (Hinv _ _ Ei) as [Hph _].
Qed.

Lemma launch_prefix requested (st : gmap string stat) (pre post : list api) :
  foldl (fun f ia => _tryApiWithRetry_call requested ia.1 ia.2 1 f)
        (mkFan ((fun a => mkTask a 1 Created) <$> (pre ++ post)) false 0 None
               false st [])
        (imap pair pre)
  = mkFan (((fun a => mkTask a 1 InFlight) <$> pre)
           ++ ((fun a => mkTask a 1 Created) <$> post))
          false 0 None false st
          ((fun a => NetCall (url a) requested) <$> pre).
Proof.
  revert post. induction pre as [|x pre IH] using rev_ind; intros post.
  - reflexivity.
  - rewrite imap_app, foldl_app. simpl.
    rewrite <- app_assoc. simpl. rewrite IH.
    unfold _tryApiWithRetry_call. simpl.
    rewrite insert_app_r_alt by (rewrite length_fmap; lia).
    rewrite length_fmap, Nat.add_0_r, Nat.sub_diag. simpl.
    rewrite !fmap_app. simpl. by rewrite <- !app_assoc.
Qed.

Lemma launch_fields requested (apis : list api) (st : gmap string stat) :
  launch requested apis st
  = mkFan ((fun a => mkTask a 1 InFlight) <$> apis) false 0 None false st
          ((fun a => NetCall (url a) requested) <$> apis).
Proof.
  unfold launch. rewrite <- (app_nil_r apis) at 1.
  rewrite launch_prefix. simpl. by rewrite app_nil_r.
Qed.

Lemma net_calls_launch requested (apis : list api) :
  net_calls ((fun a => NetCall (url a) requested) <$> apis)
  = (fun a => (url a, requested)) <$> apis.
Proof.
  induction apis as [|a apis IH]; [done|].
  rewrite !fmap_cons. simpl. by rewrite IH.
Qed.

Lemma fan_out_without_retry requested apis st evs :
  let f := fan_out CONFIG.API.RETRY_LIMIT requested apis st evs in
  no_retry_pending f
  /\ net_calls (trace f) = (fun a => (url a, requested)) <$> apis
  /\ forallb (fun x => negb (is_delay x)) (trace f) = true.
Proof.
  unfold fan_out.
  induction evs as [|ev evs IH] using rev_ind.
  - simpl. rewrite launch_fields. simpl. split; [|split].
    + intros i t [a [-> _]]%list_lookup_fmap_Some. by split.
    + apply net_calls_launch.
    + induction apis as [|a apis IHa]; [done|]. simpl. apply IHa.
  - rewrite foldl_app. simpl. destruct IH as (Hinv & Hnet & Hdel).
    destruct (step_without_retry requested _ ev Hinv) as (H1 & H2 & H3).
    split; [done|]. split; [by rewrite H2|by apply H3].
Qed.

(** The retry branch is live in the model: with a retry limit of 2 the same
    failed reply is followed by the delay. *)
Example retry_taken_with_limit_2 :
  (processUrl_with 2 (sample_env [Reply 0 None (qz 35); TimerFired 0])
     sample_url (mkState ∅ None None)).2
  = [NetCall "https://up.example/?u={url}" "https://example.org/x";
     Recorded "https://up.example/?u={url}" false;
     Delay 2000;
     NetCall "https://up.example/?u={url}" "https://example.org/x"].
Proof. vm_compute. reflexivity. Qed.

(** C10.  With the configured retry limit of 1 and attempts numbered from 1:
    whatever the network delivers, the effects of a [processUrl] call hold no
    retry delay and at most one request per descriptor of the ranked list; a
    first attempt whose request fails or whose result is invalid settles
    with [null] at once, after one [record] call with [success = false]; and
    a call of [_tryApiWithRetry] made once the signal is aborted settles with
    [null], sends no request and records nothing. *)
Theorem retry_branch_unreachable :
  (forall e requested s,
     let tr := (processUrl e requested s).2 in
     forallb (fun x => negb (is_delay x)) tr = true
     /\ net_calls tr `sublist_of`
          ((fun a => (url a, requested))
             <$> sortApis (stats s) (FileService.loadApis e)))
  /\ (forall i a data responseTime f,
        extract_result a data = None
        \/ (exists r, extract_result a data = Some r
                      /\ ValidationService.isValidResponse r = false) ->
        let f' := _tryApiWithRetry_reply CONFIG.API.RETRY_LIMIT i a 1 data
                    responseTime f in
        f' = settle i a 1 VNull (track (url a) responseTime false f)
        /\ tasks f' = <[i := mkTask a 1 (Settled VNull)]> (tasks f)
        /\ fstats f'
           = ApiPerformanceTracker.record (url a) responseTime false (fstats f)
        /\ trace f' = trace f ++ [Recorded (url a) false])
  /\ (forall requested i a attempt f,
        aborted f = true ->
        let f' := _tryApiWithRetry_call requested i a attempt f in
        tasks f' = <[i := mkTask a attempt (Settled VNull)]> (tasks f)
        /\ fstats f' = fstats f
        /\ trace f' = trace f).
Proof.
  split; [|split].
  - intros e requested s. unfold processUrl, processUrl_with. simpl.
    destruct (FileService.loadApis e) as [|a apis] eqn:Eapis.
    { simpl. split; [done|]. apply sublist_nil_l. }
    simpl length. cbv iota beta. simpl Nat.eqb. cbv iota.
    destruct (cache_get _ _ _).
    { simpl. split; [done|]. apply sublist_nil_l. }
    destruct (fan_out_without_retry requested
                (sortApis (stats s) (a :: apis)) (stats s) (arrivals e))
      as (_ & Hnet & Hdel).
    assert (forall (o : outcome) (s' : state) (tr : list effect),
              tr = trace (fan_out CONFIG.API.RETRY_LIMIT requested
                            (sortApis (stats s) (a :: apis)) (stats s)
                            (arrivals e)) ->
              forallb (fun x => negb (is_delay x)) (o, s', tr).2 = true
              /\ net_calls (o, s', tr).2 `sublist_of`
                   ((fun a => (url a, requested))
                      <$> sortApis (stats s) (a :: apis))) as Hall.
    { intros o s' tr ->. split; [exact Hdel|]. rewrite <- Hnet. reflexivity. }
    destruct (resolved _); [by apply Hall|].
    destruct (rejected _); by apply Hall.
  - intros i a data responseTime f Hfail f'.
    assert (f' = settle i a 1 VNull (track (url a) responseTime false f))
      as ->.
    { subst f'. unfold _tryApiWithRetry_reply.
      destruct Hfail as [->|(r & -> & ->)];
        by apply catch_without_retry. }
    split; [done|].
    destruct (settle_fields i a 1 VNull (track (url a) responseTime false f))
      as (-> & -> & ->).
    done.
  - intros requested i a attempt f Hab f'. subst f'.
    unfold _tryApiWithRetry_call. rewrite Hab.
    apply settle_fields.
Qed.

Lemma retry_branch_unreachable_witness :
  fstats
    (_tryApiWithRetry_reply CONFIG.API.RETRY_LIMIT 0 sample_api 1
       (Some (VString (js "error 404"))) (qz 35)
       (launch sample_url [sample_api] ∅))
  = ApiPerformanceTracker.record "https://up.example/?u={url}" (qz 35) false ∅
  /\ trace
       (_tryApiWithRetry_call sample_url 0 sample_api 1
          (mkFan [mkTask sample_api 1 Created] true 0 None false ∅ []))
     = [].
Proof.
  split.
  - apply (proj1 (proj2 retry_branch_unreachable) 0 sample_api
             (Some (VString (js "error 404"))) (qz 35)
             (launch sample_url [sample_api] ∅)).
    right. eexists. split; [reflexivity|]. vm_compute. reflexivity.
  - apply (proj2 (proj2 retry_branch_unreachable) sample_url 0 sample_api 1
             (mkFan [mkTask sample_api 1 Created] true 0 None false ∅ [])).
    reflexivity.
Defined.

(** ** The fan-out ends once every request is answered *)

Lemma firstValid_then_count result f :
  settledCount (firstValid_then result f) = S (settledCount f).
Proof.
  unfold firstValid_then.
  destruct (_ && _ && _); [done|]. by destruct (_ && _).
Qed.

Lemma firstValid_then_ends result f :
  resolved (firstValid_then result f) = None ->
  S (settledCount f) = length (tasks f) ->
  rejected (firstValid_then result f) = true.
Proof.
  unfold firstValid_then.
  destruct (_ && _ && _); [done|].
  destruct (Nat.eqb _ _ && _) eqn:E; [done|].
  simpl. intros Hnone Hlen. exfalso.
  unfold is_resolved in E. rewrite Hnone, Hlen, Nat.eqb_refl in E.
  discriminate.
Qed.

Lemma settled_count_insert (l : list task) i t t' :
  l !! i = Some t -> is_settled t = false -> is_settled t' = true ->
  length (filter (fun t => is_settled t = true) (<[i := t']> l))
  = S (length (filter (fun t => is_settled t = true) l)).
Proof.
  revert i. induction l as [|x l IH]; intros i Hi Ht Ht'; [done|].
  destruct i as [|i]; simpl in *.
  - injection Hi as ->. rewrite !filter_cons.
    destruct (decide (is_settled t' = true)); [|done].
    destruct (decide (is_settled t = true)); [congruence|done].
  - rewrite !filter_cons.
    destruct (decide (is_settled x = true)); simpl; by rewrite (IH i).
Qed.

Lemma settled_count_full (l : list task) :
  (forall i, i < length l ->
             exists t, l !! i = Some t /\ is_settled t = true) ->
  length (filter (fun t => is_settled t = true) l) = length l.
Proof.
  induction l as [|x l IH]; intros Hall; [done|].
  rewrite filter_cons.
  destruct (Hall 0) as (t & [= <-] & Ht); [simpl; lia|].
  destruct (decide (is_settled x = true)); [|done].
  simpl. rewrite IH; [done|].
  intros i Hi. apply (Hall (S i)). simpl. lia.
Qed.

Lemma step_keeps_fan_ok requested f ev :
  fan_ok f ->
  let f' := step CONFIG.API.RETRY_LIMIT requested f ev in
  fan_ok f'
  /\ length (tasks f') = length (tasks f)
  /\ (forall j t, tasks f !! j = Some t -> is_settled t = true ->
                  exists t', tasks f' !! j = Some t' /\ is_settled t' = true)
  /\ (forall i data responseTime,
        ev = Reply i data responseTime -> i < length (tasks f) ->
        exists t', tasks f' !! i = Some t' /\ is_settled t' = true).
Proof.
  intros (Hph & Hcount & Hend).
  assert (fan_ok f) as Hok by done.
  destruct ev as [i data responseTime|i]; simpl.
  - destruct (tasks f !! i) as [[a attempt ph]|] eqn:Ei.
    2:{ split; [done|]. split; [done|]. split; [eauto|].
        intros i' ? ? [= <- _ _] Hlt.
        apply lookup_lt_is_Some_2 in Hlt as [t Ht]. congruence. }
    destruct (Hph _ _ Ei) as [Hcase Hatt]. simpl in Hcase, Hatt.
    destruct ph as [| | |r].
    1,3: by destruct Hcase.
    2:{ split; [done|]. split; [done|]. split; [eauto|].
        intros i' ? ? [= <- _ _] _. eexists. by split. }
    destruct (reply_without_retry i a attempt data responseTime f Hatt)
      as (result & success & ->).
    set (g := mkFan (<[i := mkTask a attempt (Settled result)]> (tasks f))
                    (aborted f) (settledCount f) (resolved f) (rejected f)
                    (ApiPerformanceTracker.record (url a) responseTime success
                       (fstats f))
                    (trace f ++ [Recorded (url a) success])).
    change (settle i a attempt result (track (url a) responseTime success f))
      with (firstValid_then result g).
    destruct (firstValid_then_fields result g) as (Et & _ & _).
    assert (i < length (tasks f)) as Hi by (by eapply lookup_lt_Some).
    split; [split; [|split]|split; [|split]].
    + intros j t. rewrite Et. simpl.
      intros [(-> & <- & _)|(_ & Hj)]%list_lookup_insert_Some.
      * split; [by right|done].
      * by apply (Hph j).
    + rewrite firstValid_then_count, Et. simpl.
      rewrite (settled_count_insert _ _ _ _ Ei) by done. by rewrite Hcount.
    + rewrite Et, firstValid_then_count. simpl. rewrite length_insert.
      intros Hnone Hlen _. apply firstValid_then_ends; [done|].
      simpl. by rewrite length_insert.
    + rewrite Et. simpl. by rewrite length_insert.
    + intros j t Hj Ht. rewrite Et. simpl.
      destruct (decide (i = j)) as [->|Hne].
      * eexists. split; [by apply list_lookup_insert_eq|done].
      * exists t. split; [by rewrite list_lookup_insert_ne|done].
    + intros i' ? ? [= <- _ _] _. rewrite Et. simpl.
      eexists. split; [by apply list_lookup_insert_eq|done].
  - destruct (tasks f !! i) as [[a attempt ph]|] eqn:Ei.
    2:{ split; [done|]. split; [done|]. split; [eauto|]. done. }
    destruct (Hph _ _ Ei) as [Hcase _]. simpl in Hcase.
    destruct ph as [| | |r]; [by destruct Hcase| |by destruct Hcase|];
      (split; [done|]; split; [done|]; split; [by eauto|done]).
Qed.

Lemma fan_out_keeps_settled requested f evs j t :
  fan_ok f -> tasks f !! j = Some t -> is_settled t = true ->
  exists t', tasks (foldl (step CONFIG.API.RETRY_LIMIT requested) f evs) !! j
             = Some t'
             /\ is_settled t' = true.
Proof.
  revert f t. induction evs as [|ev evs IH]; intros f t Hok Hj Ht; [eauto|].
  simpl. destruct (step_keeps_fan_ok requested f ev Hok)
    as (Hok' & _ & Hkeep & _).
  destruct (Hkeep _ _ Hj Ht) as (t' & Hj' & Ht'). by eapply IH.
Qed.

Lemma fan_out_settles_answered requested f evs i data responseTime :
  fan_ok f -> i < length (tasks f) ->
  Reply i data responseTime ∈ evs ->
  exists t', tasks (foldl (step CONFIG.API.RETRY_LIMIT requested) f evs) !! i
             = Some t'
             /\ is_settled t' = true.
Proof.
  revert f. induction evs as [|ev evs IH]; intros f Hok Hi Hin.
  - by apply elem_of_nil in Hin.
  - simpl. destruct (step_keeps_fan_ok requested f ev Hok)
      as (Hok' & Hlen & _ & Hreply).
    apply elem_of_cons in Hin as [<-|Hin].
    + destruct (Hreply _ _ _ eq_refl Hi) as (t' & Hi' & Ht').
      by eapply fan_out_keeps_settled.
    + apply IH; [done| |done]. by rewrite Hlen.
Qed.

Lemma fan_out_keeps_fan_ok requested f evs :
  fan_ok f ->
  fan_ok (foldl (step CONFIG.API.RETRY_LIMIT requested) f evs)
  /\ length (tasks (foldl (step CONFIG.API.RETRY_LIMIT requested) f evs))
     = length (tasks f).
Proof.
  revert f. induction evs as [|ev evs IH]; intros f Hok; [done|].
  simpl. destruct (step_keeps_fan_ok requested f ev Hok) as (Hok' & Hlen & _).
  destruct (IH _ Hok') as [H1 H2]. split; [done|]. by rewrite H2.
Qed.

Lemma launch_fan_ok requested (apis : list api) (st : gmap string stat) :
  fan_ok (launch requested apis st).
Proof.
  rewrite launch_fields. split; [|split]; simpl.
  - intros i t [a [-> _]]%list_lookup_fmap_Some. simpl. split; [by left|done].
  - induction apis as [|a apis IH]; [done|].
    rewrite fmap_cons, filter_cons. simpl.
    destruct (decide (false = true)); [done|]. apply IH.
  - intros _ Hlen Hpos. rewrite <- Hlen in Hpos. lia.
Qed.

Lemma sort_insert_length {A} (cmp : A -> A -> jsnum) a l :
  length (sort_insert cmp a l) = S (length l).
Proof.
  induction l as [|b l IH]; [done|]. simpl.
  destruct (num_pos (cmp a b)); simpl; by rewrite ?IH.
Qed.

Lemma sortApis_length st (apis : list api) :
  length (sortApis st apis) = length apis.
Proof.
  unfold sortApis, array_sort.
  induction apis as [|a apis IH]; [done|].
  simpl. by rewrite sort_insert_length, IH.
Qed.

(** Under the configured retry limit, a call whose every upstream request
    is answered (by a body or by a failure, in any order) has ended: with a
    cached or a new result or with an error. *)
Lemma processUrl_ends_when_answered (e : env) (requested : string)
    (s : state) :
  (forall i, i < length (FileService.loadApis e) ->
             exists data responseTime,
               Reply i data responseTime ∈ arrivals e) ->
  (processUrl e requested s).1.1 <> Pending.
Proof.
  intros Hall. unfold processUrl, processUrl_with.
  destruct (FileService.loadApis e) as [|a apis] eqn:Eapis; [done|].
  simpl length. simpl Nat.eqb. cbv iota.
  destruct (cache_get _ _ _); [done|].
  unfold fan_out.
  set (ranked := sortApis (stats s) (a :: apis)).
  pose proof (launch_fan_ok requested ranked (stats s)) as Hok.
  assert (length (tasks (launch requested ranked (stats s)))
          = S (length apis)) as Hlen0.
  { rewrite launch_fields. simpl. rewrite length_fmap.
    unfold ranked. by rewrite sortApis_length. }
  destruct (fan_out_keeps_fan_ok requested _ (arrivals e) Hok)
    as ((_ & Hcount & Hend) & Hlen).
  set (f := foldl (step CONFIG.API.RETRY_LIMIT requested)
                  (launch requested ranked (stats s)) (arrivals e)) in *.
  destruct (resolved f) eqn:Er; [done|].
  rewrite Hend; [done|done| |lia].
  rewrite Hcount. apply settled_count_full. intros i Hi.
  destruct (Hall i) as (data & responseTime & Hin); [simpl; lia|].
  eapply fan_out_settles_answered; [done|lia|done].
Qed.

(** * Further properties of the module *)

(** ** The tracker as a count of its history *)





(** ** Failures and the score *)






(** ** Ranking: a stable ascending sort *)

Lemma sort_insert_perm {A} (cmp : A -> A -> jsnum) a l :
  sort_insert cmp a l ≡ₚ a :: l.
Proof.
  induction l as [|b l IH]; [done|]. simpl.
  destruct (num_pos (cmp a b)); [|done].
  rewrite IH. apply Permutation_swap.
Qed.

Lemma sortApis_perm st (apis : list api) : sortApis st apis ≡ₚ apis.
Proof.
  unfold sortApis, array_sort.
  induction apis as [|a apis IH]; [done|].
  simpl. by rewrite sort_insert_perm, IH.
Qed.





(** On scores that are finite or +infinity, the comparator of [sortApis] is
    positive exactly when its first score is the greater. *)
Lemma num_pos_sub_lt (x y : jsnum) :
  (exists q, x = Fin q) \/ x = PInf ->
  (exists q, y = Fin q) \/ y = PInf ->
  num_pos (num_sub x y) = num_lt y x.
Proof.
  intros [[p ->]| ->] [[q ->]| ->]; try done. simpl. unfold qc_pos.
  apply bool_decide_ext. unfold Qcminus. symmetry. apply Qclt_minus_iff.
Qed.

Lemma num_lt_asym (x y : jsnum) : num_lt x y = true -> num_lt y x = false.
Proof.
  destruct x as [p| | |], y as [q| | |]; try done. simpl.
  intros H%bool_decide_eq_true. apply bool_decide_eq_false_2.
  intros H'. apply (Qclt_not_le _ _ H). by apply Qclt_le_weak.
Qed.

Lemma num_not_lt_trans (x y z : jsnum) :
  (exists q, y = Fin q) \/ y = PInf ->
  num_lt y x = false -> num_lt z y = false -> num_lt z x = false.
Proof.
  intros [[q ->]| ->]; destruct x as [p| | |], z as [r| | |]; try done.
  simpl. intros H1%bool_decide_eq_false H2%bool_decide_eq_false.
  apply bool_decide_eq_false_2. apply Qcle_not_lt.
  apply Qcle_trans with q; by apply Qcnot_lt_le.
Qed.

Lemma sort_insert_sorted calls a l :
  StronglySorted (ranks_before (record_all calls)) l ->
  StronglySorted (ranks_before (record_all calls))
                 (sort_insert (compareApis (record_all calls)) a l).
Proof.
  induction 1 as [|b l Hl IH Hb]; simpl.
  - repeat constructor.
  - destruct (num_pos (compareApis (record_all calls) a b)) eqn:Hpos.
    + constructor; [done|]. apply sort_insert_Forall; [|done].
      unfold ranks_before. apply num_lt_asym.
      unfold compareApis in Hpos.
      by rewrite num_pos_sub_lt in Hpos by apply score_finite_or_infinite.
    + assert (ranks_before (record_all calls) a b) as Hab.
      { unfold ranks_before. unfold compareApis in Hpos.
        by rewrite num_pos_sub_lt in Hpos by apply score_finite_or_infinite. }
      constructor; [by constructor|]. constructor; [done|].
      eapply Forall_impl; [|exact Hb]. intros c Hbc.
      unfold ranks_before in *.
      eapply num_not_lt_trans;
        [apply (score_finite_or_infinite calls b)|done|done].
Qed.

Lemma sortApis_sorted calls apis :
  StronglySorted (ranks_before (record_all calls))
                 (sortApis (record_all calls) apis).
Proof.
  unfold sortApis, array_sort. induction apis as [|a apis IH]; simpl.
  - constructor.
  - by apply sort_insert_sorted.
Qed.

Lemma StronglySorted_lookup_lt {A} (R : A -> A -> Prop) (l : list A) i j a b :
  StronglySorted R l -> i < j -> l !! i = Some a -> l !! j = Some b -> R a b.
Proof.
  intros Hs. revert i j. induction Hs as [|x l Hl IH Hx]; intros i j Hij Hi Hj.
  - done.
  - destruct j as [|j]; [lia|]. simpl in Hj. destruct i as [|i].
    + injection Hi as <-. rewrite Forall_forall in Hx. apply Hx.
      apply list_elem_of_In. by eapply list_elem_of_lookup_2.
    + simpl in Hi. apply (IH i j); [lia|done|done].
Qed.

(** After any history of [record] calls, [sortApis] returns the descriptors
    in ascending order of score: no descriptor stands behind one with a
    strictly greater score. *)
Theorem sortApis_ascending (calls : list record_call) (apis : list api)
    (i j : nat) (a b : api) :
  i < j ->
  sortApis (record_all calls) apis !! i = Some a ->
  sortApis (record_all calls) apis !! j = Some b ->
  num_lt (ApiPerformanceTracker.getScore (record_all calls) (url b))
         (ApiPerformanceTracker.getScore (record_all calls) (url a)) = false.
Proof.
  intros Hij Hi Hj.
  exact (StronglySorted_lookup_lt _ _ i j a b (sortApis_sorted calls apis)
           Hij Hi Hj).
Qed.

Lemma sortApis_ascending_witness :
  num_lt (ApiPerformanceTracker.getScore
            (record_all [("https://extra.example/?u={url}"%string, qz 40, true)])
            (url sample_api))
         (ApiPerformanceTracker.getScore
            (record_all [("https://extra.example/?u={url}"%string, qz 40, true)])
            (url sample_extra))
  = false.
Proof.
  apply (sortApis_ascending
           [("https://extra.example/?u={url}"%string, qz 40, true)]
           [sample_api; sample_extra] 0 1 sample_extra sample_api).
  - lia.
  - vm_compute. reflexivity.
  - vm_compute. reflexivity.
Defined.

(** ** The classifier and letter case *)

Lemma is_line_terminator_case (c c' : N) :
  canonicalize c = canonicalize c' ->
  is_line_terminator c = is_line_terminator c'.
Proof.
  unfold canonicalize, is_line_terminator, in_range.
  repeat match goal with
         | |- context [(?a <=? ?b)%N] => destruct (N.leb_spec a b)
         | |- context [(?a =? ?b)%N] => destruct (N.eqb_spec a b)
         end; simpl; intros; try reflexivity; lia.
Qed.

Lemma is_hex_digit_case (c c' : N) :
  canonicalize c = canonicalize c' -> is_hex_digit c = is_hex_digit c'.
Proof.
  unfold canonicalize, is_hex_digit, in_range.
  repeat match goal with
         | |- context [(?a <=? ?b)%N] => destruct (N.leb_spec a b)
         end; simpl; intros; try reflexivity; lia.
Qed.

Lemma atom_matches_case (a : atom) (c c' : N) :
  canonicalize c = canonicalize c' -> atom_matches a c = atom_matches a c'.
Proof.
  intros E. destruct a as [p|]; simpl.
  - by rewrite E.
  - by rewrite (is_line_terminator_case _ _ E).
Qed.

Lemma head_word_case (t t' : jsstring) :
  same_up_to_case t t' -> is_word_opt (head t) = is_word_opt (head t').
Proof. destruct 1 as [|c c' t t' E _]; [done|]. by apply canonicalize_word. Qed.

Lemma match_here_case atoms prev prev' (t t' : jsstring) :
  is_word_opt prev = is_word_opt prev' -> same_up_to_case t t' ->
  match_here atoms prev t = match_here atoms prev' t'.
Proof.
  revert prev prev' t t'.
  induction atoms as [|a atoms IH]; intros prev prev' t t' Hp Ht; simpl.
  - unfold boundary. by rewrite Hp, (head_word_case _ _ Ht).
  - destruct Ht as [|c c' t t' E Ht]; [done|].
    rewrite (atom_matches_case a _ _ E). f_equal.
    apply IH; [by apply canonicalize_word|done].
Qed.

Lemma search_from_case atoms prev prev' (t t' : jsstring) :
  is_word_opt prev = is_word_opt prev' -> same_up_to_case t t' ->
  search_from atoms prev t = search_from atoms prev' t'.
Proof.
  intros Hp Ht. revert prev prev' Hp.
  induction Ht as [|c c' t t' E Ht IH]; intros prev prev' Hp.
  - simpl.
    rewrite (match_here_case atoms prev prev' [] [] Hp ltac:(constructor)).
    unfold boundary. by rewrite Hp.
  - simpl search_from.
    rewrite (match_here_case atoms prev prev' (c :: t) (c' :: t') Hp
               ltac:(by constructor)).
    unfold boundary. rewrite Hp. simpl.
    rewrite (canonicalize_word _ _ E).
    by rewrite (IH (Some c) (Some c')) by by apply canonicalize_word.
Qed.

Lemma keyword_test_case keyword (t t' : jsstring) :
  same_up_to_case t t' -> keyword_test keyword t = keyword_test keyword t'.
Proof.
  intros Ht. unfold keyword_test.
  destruct (compile_atoms (js keyword)); [|done].
  by apply search_from_case.
Qed.

Lemma hex32_test_case (t t' : jsstring) :
  same_up_to_case t t' -> hex32_test t = hex32_test t'.
Proof.
  intros Ht. unfold hex32_test. f_equal.
  - apply bool_decide_ext. by rewrite (Forall2_length Ht).
  - induction Ht as [|c c' t t' E Ht IH]; [done|].
    simpl. by rewrite (is_hex_digit_case _ _ E), IH.
Qed.

Lemma existsb_keyword_case (kws : list string) (t t' : jsstring) :
  same_up_to_case t t' ->
  existsb (fun kw => keyword_test kw t) kws
  = existsb (fun kw => keyword_test kw t') kws.
Proof.
  intros Ht. apply existsb_agree. apply Forall_forall. intros kw _.
  by apply keyword_test_case.
Qed.

(** The three tests of [ValidationService] do not see the case of ASCII
    letters: two texts that differ in letter case only are classified the
    same. *)
Theorem classification_ignores_case (t1 t2 : jsstring) :
  same_up_to_case t1 t2 ->
  ValidationService.isErrorResponse (VString t1)
  = ValidationService.isErrorResponse (VString t2)
  /\ ValidationService.isSuccessResponse (VString t1)
     = ValidationService.isSuccessResponse (VString t2)
  /\ ValidationService.isValidResponse (VString t1)
     = ValidationService.isValidResponse (VString t2).
Proof.
  intros Ht.
  assert (bool_decide (t1 = []) = bool_decide (t2 = [])) as Hnil.
  { apply bool_decide_ext. destruct Ht; by split. }
  unfold ValidationService.isValidResponse, ValidationService.isErrorResponse,
    ValidationService.isSuccessResponse.
  cbn [truthy ValidationService._toString].
  rewrite Hnil, (hex32_test_case _ _ Ht),
    (existsb_keyword_case CONFIG.API.ERROR_KEYWORDS _ _ Ht),
    (existsb_keyword_case CONFIG.API.SUCCESS_KEYWORDS _ _ Ht).
  done.
Qed.

Lemma classification_ignores_case_witness :
  ValidationService.isValidResponse (VString (js "Loadstring OK"))
  = ValidationService.isValidResponse (VString (js "loadSTRING ok")).
Proof.
  apply (classification_ignores_case (js "Loadstring OK")
           (js "loadSTRING ok")).
  repeat constructor.
Defined.

(** ** Keywords as delimited words *)

Lemma error_keyword_test (kw : string) (text : jsstring) :
  In kw CONFIG.API.ERROR_KEYWORDS ->
  keyword_test kw text = spec_whole_word kw text.
Proof.
  intros Hkw. apply keyword_test_whole_word.
  destruct configured_keywords_plain as [Herr _].
  rewrite forallb_forall in Herr. by apply Herr.
Qed.

(** A response in which an error keyword stands as a delimited word, in any
    letter case, is invalid whatever else it holds, unless the whole response
    is a 32-digit token; a response in which no error keyword and some
    success keyword without pattern syntax stands as a delimited word is
    valid. *)
Theorem keywords_decide_validity (text : jsstring) :
  (forall kw,
     In kw CONFIG.API.ERROR_KEYWORDS ->
     spec_whole_word kw text = true ->
     hex32_test text = false ->
     ValidationService.isValidResponse (VString text) = false)
  /\ (forall kw,
        text <> [] ->
        (forall ekw, In ekw CONFIG.API.ERROR_KEYWORDS ->
                     spec_whole_word ekw text = false) ->
        In kw CONFIG.API.SUCCESS_KEYWORDS ->
        plain_keyword (js kw) = true ->
        spec_whole_word kw text = true ->
        ValidationService.isValidResponse (VString text) = true).
Proof.
  split.
  - intros kw Hkw Hocc Hhex.
    destruct (decide (text = [])) as [->|Hne]; [done|].
    rewrite (proj2 isValidResponse_by_pattern_tests text Hne Hhex).
    apply andb_false_intro1, negb_false_iff, existsb_exists.
    exists kw. split; [done|]. by rewrite error_keyword_test.
  - intros kw Hne Hnoerr Hkw Hplain Hocc.
    destruct (hex32_test text) eqn:Hhex.
    { unfold ValidationService.isValidResponse. simpl.
      by rewrite (bool_decide_eq_false_2 _ Hne), Hhex. }
    rewrite (proj2 isValidResponse_by_pattern_tests text Hne Hhex).
    apply andb_true_intro. split.
    + apply negb_true_iff, not_true_iff_false.
      intros (ekw & Hekw & Ht)%existsb_exists.
      rewrite error_keyword_test in Ht by done.
      by rewrite (Hnoerr ekw Hekw) in Ht.
    + apply existsb_exists. exists kw. split; [done|].
      by rewrite keyword_test_whole_word.
Qed.

Lemma keywords_decide_validity_witness :
  ValidationService.isValidResponse (VString (js "Success, no ERROR here"))
  = false.
Proof.
  apply (proj1 (keywords_decide_validity (js "Success, no ERROR here"))
           "error"%string).
  - simpl. tauto.
  - vm_compute. reflexivity.
  - vm_compute. reflexivity.
Defined.

(** ** The fan-out, step by step *)

Lemma valid_is_truthy v :
  ValidationService.isValidResponse v = true -> truthy v = true.
Proof.
  unfold ValidationService.isValidResponse. by destruct (truthy v).
Qed.

Lemma catch_unfold RETRY_LIMIT i a attempt responseTime f :
  _tryApiWithRetry_catch RETRY_LIMIT i a attempt responseTime f
  = if Nat.ltb attempt RETRY_LIMIT && negb (aborted f)
    then sleeping i a attempt (track (url a) responseTime false f)
    else settle i a attempt VNull (track (url a) responseTime false f).
Proof. reflexivity. Qed.

Lemma call_unfold requested i a attempt f :
  _tryApiWithRetry_call requested i a attempt f
  = if aborted f then settle i a attempt VNull f
    else sending requested i a attempt f.
Proof. reflexivity. Qed.

Lemma catch_is_step RETRY_LIMIT requested f i a attempt data responseTime :
  tasks f !! i = Some (mkTask a attempt InFlight) ->
  fan_step RETRY_LIMIT requested f (Reply i data responseTime)
    (_tryApiWithRetry_catch RETRY_LIMIT i a attempt responseTime f).
Proof.
  intros Ei. rewrite catch_unfold.
  destruct (Nat.ltb_spec attempt RETRY_LIMIT) as [Hlt|_];
    [|by apply step_failed].
  destruct (aborted f) eqn:Hab; simpl.
  - by apply step_failed.
  - by apply step_retry.
Qed.

(** Every network event either finds nothing waiting for it or makes one of
    the five steps. *)
Lemma step_cases RETRY_LIMIT requested f ev :
  step RETRY_LIMIT requested f ev = f
  \/ fan_step RETRY_LIMIT requested f ev (step RETRY_LIMIT requested f ev).
Proof.
  destruct ev as [i data responseTime|i]; simpl.
  - destruct (tasks f !! i) as [[a attempt ph]|] eqn:Ei; [|by left].
    destruct ph; try by left. right.
    unfold _tryApiWithRetry_reply.
    destruct (extract_result a data) as [r|] eqn:Er.
    + destruct (ValidationService.isValidResponse r) eqn:Hv.
      * by eapply step_valid.
      * by apply catch_is_step.
    + by apply catch_is_step.
  - destruct (tasks f !! i) as [[a attempt ph]|] eqn:Ei; [|by left].
    destruct ph; try by left. right.
    rewrite call_unfold. destruct (aborted f) eqn:Hab.
    + by apply step_wake_aborted.
    + by apply step_wake.
Qed.

Lemma firstValid_then_resolved r g :
  resolved (firstValid_then r g)
  = match resolved g with
    | Some x => Some x
    | None => if ValidationService.isValidResponse r then Some r else None
    end.
Proof.
  unfold firstValid_then, is_resolved.
  destruct (resolved g) as [x|] eqn:Eg.
  - rewrite !andb_false_r. simpl. done.
  - destruct (ValidationService.isValidResponse r) eqn:Hv.
    + by rewrite (valid_is_truthy _ Hv).
    + rewrite andb_false_r. simpl.
      match goal with
      | |- context [if ?c then _ else _] => destruct c
      end; reflexivity.
Qed.


Lemma settle_resolved i a attempt r f :
  resolved (settle i a attempt r f)
  = match resolved f with
    | Some x => Some x
    | None => if ValidationService.isValidResponse r then Some r else None
    end.
Proof. unfold settle. by rewrite firstValid_then_resolved. Qed.


(** Once [resolve] has been called its value stays. *)
Lemma step_keeps_resolved RETRY_LIMIT requested f ev r :
  resolved f = Some r -> resolved (step RETRY_LIMIT requested f ev) = Some r.
Proof.
  intros Hr. destruct (step_cases RETRY_LIMIT requested f ev) as [->|Hstep];
    [done|].
  destruct Hstep; rewrite ?settle_resolved; simpl; by rewrite Hr.
Qed.

Lemma fold_keeps_resolved RETRY_LIMIT requested f evs r :
  resolved f = Some r ->
  resolved (foldl (step RETRY_LIMIT requested) f evs) = Some r.
Proof.
  revert f. induction evs as [|ev evs IH]; intros f Hr; [done|].
  simpl. apply IH. by apply step_keeps_resolved.
Qed.

(** The descriptors of the promises stay what they were at the launch. *)
Lemma fan_step_keeps_apis RETRY_LIMIT requested f ev f' :
  fan_step RETRY_LIMIT requested f ev f' ->
  t_api <$> tasks f' = t_api <$> tasks f.
Proof.
  assert (forall i a n ph ph',
            tasks f !! i = Some (mkTask a n ph) ->
            forall n', t_api <$> <[i := mkTask a n' ph']> (tasks f)
                       = t_api <$> tasks f) as Hins.
  { intros i a n ph ph' Hi n'. rewrite list_fmap_insert. simpl.
    apply list_insert_id. by rewrite list_lookup_fmap, Hi. }
  destruct 1;
    repeat match goal with
           | |- context [tasks (settle ?i ?a ?n ?r ?g)] =>
               rewrite (proj1 (settle_fields i a n r g))
           end; simpl; by eapply Hins.
Qed.

Lemma step_keeps_apis RETRY_LIMIT requested f ev :
  t_api <$> tasks (step RETRY_LIMIT requested f ev) = t_api <$> tasks f.
Proof.
  destruct (step_cases RETRY_LIMIT requested f ev) as [->|Hstep]; [done|].
  by eapply fan_step_keeps_apis.
Qed.

Lemma fold_keeps_apis RETRY_LIMIT requested f evs :
  t_api <$> tasks (foldl (step RETRY_LIMIT requested) f evs)
  = t_api <$> tasks f.
Proof.
  revert f. induction evs as [|ev evs IH]; intros f; [done|].
  simpl. by rewrite IH, step_keeps_apis.
Qed.

Lemma launch_apis requested (apis : list api) st :
  t_api <$> tasks (launch requested apis st) = apis.
Proof.
  rewrite launch_fields. simpl. rewrite <- list_fmap_compose.
  by rewrite list_fmap_id.
Qed.

Lemma task_api_lookup (l : list task) (ranked : list api) i a n ph :
  t_api <$> l = ranked -> l !! i = Some (mkTask a n ph) ->
  ranked !! i = Some a.
Proof. intros <- Hi. by rewrite list_lookup_fmap, Hi. Qed.

(** ** Where a new result comes from *)

Lemma step_resolved_origin RETRY_LIMIT requested f ev r :
  resolved (step RETRY_LIMIT requested f ev) = Some r ->
  resolved f = Some r
  \/ (ValidationService.isValidResponse r = true
      /\ exists i a attempt data responseTime,
           ev = Reply i data responseTime
           /\ tasks f !! i = Some (mkTask a attempt InFlight)
           /\ extract_result a data = Some r).
Proof.
  destruct (step_cases RETRY_LIMIT requested f ev) as [->|Hstep];
    [by left|].
  destruct Hstep as [i a n data rt x Hi Hx Hv|i a n data rt Hi Hlt Hab
                    |i a n data rt Hi|i a n Hi Hab|i a n Hi Hab];
    rewrite ?settle_resolved; simpl; try by left.
  - rewrite Hv. destruct (resolved f) as [y|]; [by left|].
    intros [= <-]. right. split; [done|]. by exists i, a, n, data, rt.
  - destruct (resolved f); [by left|done].
  - destruct (resolved f); [by left|done].
Qed.

Lemma fold_resolved_origin RETRY_LIMIT requested (ranked : list api) f evs r :
  t_api <$> tasks f = ranked ->
  resolved f = None ->
  resolved (foldl (step RETRY_LIMIT requested) f evs) = Some r ->
  ValidationService.isValidResponse r = true
  /\ exists i a data responseTime,
       Reply i data responseTime ∈ evs
       /\ ranked !! i = Some a
       /\ extract_result a data = Some r.
Proof.
  revert f. induction evs as [|ev evs IH]; intros f Hapis Hnone Hres.
  - simpl in Hres. congruence.
  - simpl in Hres.
    destruct (resolved (step RETRY_LIMIT requested f ev)) as [x|] eqn:Ex.
    + rewrite (fold_keeps_resolved _ _ _ _ _ Ex) in Hres.
      injection Hres as ->.
      destruct (step_resolved_origin _ _ _ _ _ Ex)
        as [?|(Hv & i & a & n & data & rt & -> & Hi & Hr)]; [congruence|].
      split; [done|]. exists i, a, data, rt. split; [apply list_elem_of_here|].
      split; [by eapply task_api_lookup|done].
    + destruct (IH _ (eq_trans (step_keeps_apis _ _ _ _) Hapis) Ex Hres)
        as (Hv & i & a & data & rt & Hin & Hi & Hr).
      split; [done|]. exists i, a, data, rt.
      split; [by apply list_elem_of_further|done].
Qed.

Lemma launch_resolved requested (apis : list api) st :
  resolved (launch requested apis st) = None.
Proof. by rewrite launch_fields. Qed.

Lemma fresh_result_origin (RETRY_LIMIT : nat) (e : env)
    (requested : string) (s : state) (r : js_value) :
  (processUrl_with RETRY_LIMIT e requested s).1.1 = Fresh r ->
  ValidationService.isValidResponse r = true
  /\ exists i a data responseTime,
       Reply i data responseTime ∈ arrivals e
       /\ sortApis (stats s) (FileService.loadApis e) !! i = Some a
       /\ a ∈ FileService.loadApis e
       /\ extract_result a data = Some r.
Proof.
  unfold processUrl_with.
  destruct (Nat.eqb (length (FileService.loadApis e)) 0); [done|].
  destruct (cache_get _ _ _); [done|].
  destruct (resolved _) as [x|] eqn:Ex; [|by destruct (rejected _)].
  simpl. intros [= ->]. unfold fan_out in Ex.
  destruct (fold_resolved_origin _ _ _ _ _ _ (launch_apis _ _ _)
              (launch_resolved _ _ _) Ex)
    as (Hv & i & a & data & rt & Hin & Hi & Hr).
  split; [done|]. exists i, a, data, rt. repeat split; try done.
  rewrite <- (sortApis_perm (stats s) (FileService.loadApis e)).
  by eapply list_elem_of_lookup_2.
Qed.

(** A new result is a value the classifier accepts, extracted from a reply
    that the network delivered for a descriptor of the fetched list. *)
Theorem fresh_result_is_valid_reply (RETRY_LIMIT : nat) (e : env)
    (requested : string) (s : state) (r : js_value) :
  (processUrl_with RETRY_LIMIT e requested s).1.1 = Fresh r ->
  ValidationService.isValidResponse r = true
  /\ exists i a data responseTime,
       Reply i data responseTime ∈ arrivals e
       /\ sortApis (stats s) (FileService.loadApis e) !! i = Some a
       /\ a ∈ FileService.loadApis e
       /\ extract_result a data = Some r.
Proof. apply fresh_result_origin. Qed.

Lemma fresh_result_is_valid_reply_witness :
  ValidationService.isValidResponse (VString (js "loadstring ok")) = true.
Proof.
  apply (fresh_result_is_valid_reply CONFIG.API.RETRY_LIMIT
           (sample_env [Reply 0 (Some (VString (js "loadstring ok"))) (qz 35)])
           sample_url (mkState ∅ None None)).
  vm_compute. reflexivity.
Defined.

(** When the first reply the network delivers is valid, its result is the
    one returned and cached, whatever is delivered after it. *)
Theorem first_valid_reply_wins (RETRY_LIMIT : nat) (e : env)
    (requested : string) (s : state) (i : nat) (a : api)
    (data : option js_value) (responseTime : Qc) (rest : list net_event)
    (r : js_value) :
  FileService.loadApis e <> [] ->
  cache_get (now_check e) (FileService.loadSavedUrls s) requested = None ->
  arrivals e = Reply i data responseTime :: rest ->
  sortApis (stats s) (FileService.loadApis e) !! i = Some a ->
  extract_result a data = Some r ->
  ValidationService.isValidResponse r = true ->
  (processUrl_with RETRY_LIMIT e requested s).1.1 = Fresh r
  /\ (write_ok e = true ->
      FileService.loadSavedUrls (processUrl_with RETRY_LIMIT e requested s).1.2
        !! requested
      = Some (mkEntry r (now_save e))).
Proof.
  intros Hne Hmiss Harr Hi Hr Hv. unfold processUrl_with.
  destruct (FileService.loadApis e) as [|a0 apis0] eqn:Eapis; [done|].
  simpl length. simpl Nat.eqb. cbv iota. rewrite Hmiss.
  set (ranked := sortApis (stats s) (a0 :: apis0)) in *.
  assert (resolved (fan_out RETRY_LIMIT requested ranked (stats s)
                      (arrivals e)) = Some r) as Hres.
  { unfold fan_out. rewrite Harr. simpl foldl.
    apply fold_keeps_resolved. simpl.
    rewrite launch_fields at 1. simpl.
    rewrite list_lookup_fmap, Hi. simpl.
    unfold _tryApiWithRetry_reply. rewrite Hr, Hv.
    rewrite settle_resolved. simpl. by rewrite launch_resolved, Hv. }
  rewrite Hres. split; [done|].
  intros Hw. unfold FileService.saveUrl. rewrite Hw.
  unfold FileService.loadSavedUrls at 1. simpl. apply lookup_insert_eq.
Qed.

Lemma first_valid_reply_wins_witness :
  (processUrl_with 3
     (sample_env [Reply 0 (Some (VString (js "loadstring ok"))) (qz 35);
                  Reply 0 (Some (VString (js "done"))) (qz 50);
                  TimerFired 0])
     sample_url (mkState ∅ None None)).1.1
  = Fresh (VString (js "loadstring ok")).
Proof.
  eapply (first_valid_reply_wins 3
            (sample_env [Reply 0 (Some (VString (js "loadstring ok"))) (qz 35);
                         Reply 0 (Some (VString (js "done"))) (qz 50);
                         TimerFired 0])
            sample_url (mkState ∅ None None) 0 sample_api).
  - discriminate.
  - reflexivity.
  - reflexivity.
  - vm_compute. reflexivity.
  - reflexivity.
  - vm_compute. reflexivity.
Defined.

(** ** The tracker and the effects of a fan-out *)












(** ** Requests stay with the fetched list *)

Lemma fan_step_effects RETRY_LIMIT requested (ranked : list api) f ev f' :
  fan_step RETRY_LIMIT requested f ev f' ->
  t_api <$> tasks f = ranked ->
  Forall (effect_in_list requested ranked) (trace f) ->
  Forall (effect_in_list requested ranked) (trace f').
Proof.
  intros Hstep Hapis Htr.
  assert (forall i a n ph, tasks f !! i = Some (mkTask a n ph) ->
                           exists b, b ∈ ranked /\ url b = url a) as Hin.
  { intros i a n ph Hi. exists a. split; [|done].
    eapply list_elem_of_lookup_2. by eapply task_api_lookup. }
  destruct Hstep as [i a n data rt x Hi Hx Hv|i a n data rt Hi Hlt Hab
                    |i a n data rt Hi|i a n Hi Hab|i a n Hi Hab];
    repeat match goal with
           | |- context [settle ?i ?a ?n ?r ?g] =>
               destruct (settle_fields i a n r g) as (_ & _ & ->)
           end;
    simpl; rewrite ?Forall_app; repeat split; try done;
    repeat constructor; simpl; eauto.
Qed.

Lemma fold_effects RETRY_LIMIT requested (ranked : list api) f evs :
  t_api <$> tasks f = ranked ->
  Forall (effect_in_list requested ranked) (trace f) ->
  Forall (effect_in_list requested ranked)
         (trace (foldl (step RETRY_LIMIT requested) f evs)).
Proof.
  revert f. induction evs as [|ev evs IH]; intros f Hapis Htr; [done|].
  simpl. apply IH; [by rewrite step_keeps_apis|].
  destruct (step_cases RETRY_LIMIT requested f ev) as [->|Hstep]; [done|].
  by eapply fan_step_effects.
Qed.

Lemma launch_effects requested (apis : list api) st :
  Forall (effect_in_list requested apis)
         (trace (launch requested apis st)).
Proof.
  rewrite launch_fields. simpl. apply Forall_forall.
  intros ev Hev%list_elem_of_In.
  apply list_elem_of_fmap in Hev as (a & -> & Ha). simpl. eauto.
Qed.

(** Whatever the retry limit and the schedule, every upstream request of a
    [processUrl] call carries the requested url and goes to a descriptor of
    the fetched remote list, and every [record] call is for such a
    descriptor. *)
Theorem requests_stay_in_fetched_list (RETRY_LIMIT : nat) (e : env)
    (requested : string) (s : state) :
  Forall (effect_in_list requested (FileService.loadApis e))
         (processUrl_with RETRY_LIMIT e requested s).2.
Proof.
  unfold processUrl_with.
  destruct (Nat.eqb (length (FileService.loadApis e)) 0); [constructor|].
  destruct (cache_get _ _ _); [constructor|].
  assert (Forall (effect_in_list requested (FileService.loadApis e))
            (trace (fan_out RETRY_LIMIT requested
                      (sortApis (stats s) (FileService.loadApis e))
                      (stats s) (arrivals e)))) as Htr.
  { eapply Forall_impl;
      [|apply (fold_effects RETRY_LIMIT requested
                 (sortApis (stats s) (FileService.loadApis e)));
        [apply launch_apis|apply launch_effects]].
    intros ev. unfold effect_in_list.
    destruct ev as [t r|ms|u b]; [|done|].
    - intros (Hr & a & Ha & Hu). split; [done|]. exists a.
      split; [|done]. by rewrite <- (sortApis_perm (stats s)).
    - intros (a & Ha & Hu). exists a.
      split; [|done]. by rewrite <- (sortApis_perm (stats s)). }
  destruct (resolved _); [done|]. by destruct (rejected _).
Qed.

(** ** Calling reject *)

Lemma is_settled_false_phases a n :
  is_settled (mkTask a n InFlight) = false
  /\ is_settled (mkTask a n Sleeping) = false.
Proof. by split. Qed.









(** When the fetched list is not empty, the cache misses, every request is
    answered and no reply holds a valid result, [processUrl] throws because
    every upstream failed. *)
Theorem all_invalid_replies_fail (e : env) (requested : string) (s : state) :
  FileService.loadApis e <> [] ->
  cache_get (now_check e) (FileService.loadSavedUrls s) requested = None ->
  (forall i, i < length (FileService.loadApis e) ->
             exists data responseTime,
               Reply i data responseTime ∈ arrivals e) ->
  (forall i a data responseTime r,
     Reply i data responseTime ∈ arrivals e ->
     a ∈ FileService.loadApis e ->
     extract_result a data = Some r ->
     ValidationService.isValidResponse r = false) ->
  (processUrl e requested s).1.1 = Thrown AllUpstreamsFailed.
Proof.
  intros Hne Hmiss Hall Hinv.
  pose proof (processUrl_ends_when_answered e requested s Hall) as Hend.
  destruct ((processUrl e requested s).1.1) as [x|x|err|] eqn:Eo;
    [| | |done].
  - exfalso. revert Eo. unfold processUrl, processUrl_with.
    destruct (Nat.eqb _ 0); [done|]. rewrite Hmiss.
    destruct (resolved _); [done|]. by destruct (rejected _).
  - exfalso.
    destruct (fresh_result_origin CONFIG.API.RETRY_LIMIT e requested s x)
      as (Hv & i & a & data & rt & Hin & _ & Ha & Hr); [done|].
    by rewrite (Hinv i a data rt x Hin Ha Hr) in Hv.
  - destruct err; [|done]. exfalso.
    by apply Hne, (processUrl_no_upstreams CONFIG.API.RETRY_LIMIT e requested s).
Qed.

Lemma all_invalid_replies_fail_witness :
  (processUrl
     (sample_env [Reply 0 (Some (VString (js "error 404"))) (qz 35)])
     sample_url (mkState ∅ None None)).1.1
  = Thrown AllUpstreamsFailed.
Proof.
  apply all_invalid_replies_fail.
  - discriminate.
  - reflexivity.
  - intros i Hi. simpl in Hi. assert (i = 0) as -> by lia.
    eexists _, _. apply list_elem_of_here.
  - intros i a data rt r Hin Ha Hr.
    apply list_elem_of_singleton in Hin. injection Hin as -> -> ->.
    simpl in Ha. apply list_elem_of_singleton in Ha as ->.
    simpl in Hr. injection Hr as <-. vm_compute. reflexivity.
Defined.

(** ** The cache between two calls *)

(** After a call that returned a new result and wrote it, a call for the
    same url that sees a non-empty list returns that result from the cache,
    without any effect, while less than the ten-minute window has passed
    since [saveUrl]; from then on it is no cache hit any more. *)
Theorem resolve_twice_hits_cache (RETRY_LIMIT : nat) (e1 e2 : env)
    (requested : string) (s : state) (r : js_value) :
  (processUrl_with RETRY_LIMIT e1 requested s).1.1 = Fresh r ->
  write_ok e1 = true ->
  FileService.loadApis e2 <> [] ->
  let s1 := (processUrl_with RETRY_LIMIT e1 requested s).1.2 in
  ((now_check e2 - now_save e1 < 600000)%Z ->
   processUrl_with RETRY_LIMIT e2 requested s1 = (CacheHit r, s1, []))
  /\ ((600000 <= now_check e2 - now_save e1)%Z ->
      forall x, (processUrl_with RETRY_LIMIT e2 requested s1).1.1
                <> CacheHit x).
Proof.
  intros Hfresh Hw Hne s1.
  assert (FileService.loadSavedUrls s1 !! requested
          = Some (mkEntry r (now_save e1))) as Hentry.
  { subst s1. revert Hfresh. unfold processUrl_with.
    destruct (Nat.eqb _ 0); [done|].
    destruct (cache_get _ _ _); [done|].
    destruct (resolved _) as [x|]; [|by destruct (rejected _)].
    simpl. intros [= ->]. unfold FileService.saveUrl. rewrite Hw.
    unfold FileService.loadSavedUrls at 1. simpl. apply lookup_insert_eq. }
  unfold processUrl_with at 1 2.
  destruct (FileService.loadApis e2) as [|a apis]; [done|].
  simpl length. simpl Nat.eqb. cbv iota.
  unfold cache_get. rewrite Hentry. simpl timestamp.
  change CONFIG.CACHE_DURATION with 600000%Z.
  split.
  - intros Hlt. by rewrite (proj2 (Z.ltb_lt _ _) Hlt).
  - intros Hge x. rewrite (proj2 (Z.ltb_ge _ _) Hge).
    destruct (resolved _); [done|]. by destruct (rejected _).
Qed.

Lemma resolve_twice_hits_cache_witness :
  processUrl_with 1 (sample_env []) sample_url
    (processUrl_with 1
       (sample_env [Reply 0 (Some (VString (js "loadstring ok"))) (qz 35)])
       sample_url (mkState ∅ None None)).1.2
  = (CacheHit (VString (js "loadstring ok")),
     (processUrl_with 1
        (sample_env [Reply 0 (Some (VString (js "loadstring ok"))) (qz 35)])
        sample_url (mkState ∅ None None)).1.2,
     []).
Proof.
  apply (resolve_twice_hits_cache 1
           (sample_env [Reply 0 (Some (VString (js "loadstring ok"))) (qz 35)])
           (sample_env []) sample_url (mkState ∅ None None)
           (VString (js "loadstring ok"))).
  - vm_compute. reflexivity.
  - reflexivity.
  - discriminate.
  - simpl. lia.
Defined.

(** ** Histories of requests *)

Lemma bypass_route_core rq srv :
  ((bypass_route rq srv).1.2 = srv /\ (bypass_route rq srv).2 = [])
  \/ exists u,
       q_url rq = Some u
       /\ String.prefix "https://" u = true
       /\ bypassEnabled srv = true
       /\ core (bypass_route rq srv).1.2
          = (processUrl (r_env rq) u (core srv)).1.2
       /\ bypassEnabled (bypass_route rq srv).1.2 = true.
Proof.
  unfold bypass_route, ApiKeyMiddleware.
  destruct (bool_decide (q_key rq = Some API_KEY)); simpl; [|by left].
  destruct (q_url rq) as [u|]; [|by left].
  destruct (bool_decide (u = EmptyString)); [by left|].
  destruct (String.prefix "https://" u) eqn:Hp; simpl; [|by left].
  destruct (bypassEnabled srv) eqn:Hen; simpl; [|by left].
  right. exists u. repeat split; try done;
    destruct (processUrl (r_env rq) u (core srv)) as [[o s'] tr];
    by destruct o.
Qed.

(** A property of the service state that the three state-changing
    operations keep is kept by every history of requests. *)
Lemma serve_invariant (P : state -> Prop) :
  (forall e u s, String.prefix "https://" u = true ->
                 P s -> P (processUrl e u s).1.2) ->
  (forall e body s, P s -> P (admin_add_api e body s).2) ->
  (forall written s, P s -> P (FileService.clearSavedUrls written s)) ->
  forall reqs srv, P (core srv) -> P (core (serve reqs srv)).
Proof.
  intros Hproc Hadd Hflush reqs. unfold serve.
  induction reqs as [|r reqs IH]; intros srv Hsrv; [done|].
  simpl. apply IH. destruct r as [rq|k p|k e body|written]; simpl.
  - destruct (bypass_route_core rq srv) as [[-> _]|(u & _ & Hp & _ & -> & _)];
      [done|]. by apply Hproc.
  - unfold toggle_bypass. destruct (negb _); [done|].
    destruct p as [p|]; [|done].
    destruct (String.eqb p "on"); [done|]. by destruct (String.eqb p "off").
  - unfold add_api_route. destruct (negb _); [done|].
    specialize (Hadd e body (core srv) Hsrv).
    by destruct (admin_add_api e body (core srv)).
  - by apply Hflush.
Qed.

Lemma processUrl_urls_file e u s :
  urls_file (processUrl e u s).1.2 = urls_file s
  \/ exists r,
       (processUrl e u s).1.1 = Fresh r
       /\ urls_file (processUrl e u s).1.2
          = Some (<[u := mkEntry r (now_save e)]> (FileService.loadSavedUrls s)).
Proof.
  unfold processUrl, processUrl_with.
  destruct (Nat.eqb _ 0); [by left|].
  destruct (cache_get _ _ _); [by left|].
  destruct (resolved _) as [r|]; [|by destruct (rejected _); left].
  unfold FileService.saveUrl. destruct (write_ok e); [|by left].
  right. by exists r.
Qed.

Lemma admin_add_api_urls_file e body s :
  urls_file (admin_add_api e body s).2 = urls_file s
  /\ stats (admin_add_api e body s).2 = stats s.
Proof.
  unfold admin_add_api. destruct body as [newApi|]; [|done].
  case_bool_decide; [done|].
  destruct (existsb _ (FileService.loadApis e)); [done|].
  destruct (existsb _ (FileService.loadAdditionalApis s)) eqn:E; [done|].
  unfold FileService.addAdditionalApi, FileService.saveAdditionalApis.
  rewrite E. by destruct (write_ok e).
Qed.

Lemma cache_get_lookup now (saved : gmap string cache_entry) u entry :
  cache_get now saved u = Some entry -> saved !! u = Some entry.
Proof.
  unfold cache_get. destruct (saved !! u) as [x|]; [|done].
  by destruct (_ <? _)%Z.
Qed.

Lemma processUrl_cache_valid e u s :
  cache_valid s -> cache_valid (processUrl e u s).1.2.
Proof.
  intros Hs key entry. unfold FileService.loadSavedUrls.
  destruct (processUrl_urls_file e u s) as [->|(r & Hr & ->)].
  - apply Hs.
  - intros [[<- <-]|[_ Hk]]%lookup_insert_Some.
    + simpl. by apply (fresh_result_origin _ _ _ _ _ Hr).
    + by apply (Hs key).
Qed.

Lemma same_cache_valid s s' :
  urls_file s' = urls_file s -> cache_valid s -> cache_valid s'.
Proof.
  intros E Hs key entry. unfold FileService.loadSavedUrls. rewrite E.
  apply Hs.
Qed.

Lemma clearSavedUrls_empty written s key :
  FileService.loadSavedUrls (FileService.clearSavedUrls written s) !! key
  = if written then None else FileService.loadSavedUrls s !! key.
Proof.
  unfold FileService.clearSavedUrls. destruct written; [|done].
  unfold FileService.loadSavedUrls. simpl. apply lookup_empty.
Qed.

(** Over every history of requests that starts with a cache of valid
    responses (an empty one, say), the cache holds valid responses only and
    every result that [GET /bypass] answers with, cached or new, passes
    [isValidResponse]. *)
Theorem served_results_are_valid (reqs : list request) (srv : server) :
  cache_valid (core srv) ->
  cache_valid (core (serve reqs srv))
  /\ forall rq result cached,
       (bypass_route rq (serve reqs srv)).1.1 = Resolved result cached ->
       ValidationService.isValidResponse result = true.
Proof.
  intros Hsrv.
  assert (cache_valid (core (serve reqs srv))) as Hv.
  { apply (serve_invariant cache_valid); [| | |done].
    - intros e u s _. apply processUrl_cache_valid.
    - intros e body s. apply same_cache_valid, admin_add_api_urls_file.
    - intros written s Hs key entry. rewrite clearSavedUrls_empty.
      destruct written; [done|]. apply Hs. }
  split; [done|]. intros rq result cached.
  set (srv' := serve reqs srv) in *.
  unfold bypass_route. destruct (ApiKeyMiddleware _ _) as [answer|] eqn:Em.
  { simpl. intros ->. unfold ApiKeyMiddleware in Em.
    destruct (negb _); [done|]. destruct (q_url rq) as [u|]; [|done].
    destruct (bool_decide _); [done|]. by destruct (negb _). }
  destruct (negb (bypassEnabled srv')); [done|].
  set (u := match q_url rq with Some u => u | None => EmptyString end).
  destruct (processUrl (r_env rq) u (core srv')) as [[o s'] tr] eqn:Ep.
  assert (o = (processUrl (r_env rq) u (core srv')).1.1) as Eo
    by by rewrite Ep.
  destruct o as [x|x|err|]; simpl; try done; intros [= <- _].
  - (* from the cache *)
    revert Eo. unfold processUrl, processUrl_with.
    destruct (Nat.eqb _ 0); [done|].
    destruct (cache_get _ _ _) as [entry|] eqn:Ec.
    + simpl. intros [= ->]. eapply Hv. by eapply cache_get_lookup.
    + destruct (resolved _); [done|]. by destruct (rejected _).
  - (* new *)
    by apply (fresh_result_origin CONFIG.API.RETRY_LIMIT (r_env rq) u
                (core srv')).
Qed.

Lemma served_results_are_valid_witness :
  cache_valid
    (core (serve [GetBypass
                    (mkBypassRequest (Some API_KEY) (Some sample_url)
                       (sample_env
                          [Reply 0 (Some (VString (js "loadstring ok")))
                                 (qz 35)])
                       true true)]
                 initial_server)).
Proof.
  apply served_results_are_valid. intros key entry Hk.
  unfold FileService.loadSavedUrls in Hk. simpl in Hk.
  by rewrite lookup_empty in Hk.
Defined.

Lemma processUrl_cache_keys e u s :
  String.prefix "https://" u = true ->
  cache_keys_https s -> cache_keys_https (processUrl e u s).1.2.
Proof.
  intros Hu Hs key entry. unfold FileService.loadSavedUrls.
  destruct (processUrl_urls_file e u s) as [->|(r & Hr & ->)].
  - apply Hs.
  - intros [[<- _]|[_ Hk]]%lookup_insert_Some; [done|]. by apply (Hs key entry).
Qed.

(** Over every history of requests that starts with keys of [urls.json]
    that all start with ["https://"] (no cache file, say), every key of
    [urls.json] starts with ["https://"]: the route lets no other url reach
    [processUrl]. *)
Theorem cache_keys_are_https (reqs : list request) (srv : server) :
  cache_keys_https (core srv) ->
  cache_keys_https (core (serve reqs srv)).
Proof.
  apply (serve_invariant cache_keys_https).
  - intros e u s. apply processUrl_cache_keys.
  - intros e body s Hs key entry. unfold FileService.loadSavedUrls.
    rewrite (proj1 (admin_add_api_urls_file e body s)). apply Hs.
  - intros written s Hs key entry. rewrite clearSavedUrls_empty.
    destruct written; [done|]. apply Hs.
Qed.

Lemma cache_keys_are_https_witness :
  cache_keys_https
    (core (serve [GetBypass
                    (mkBypassRequest (Some API_KEY) (Some sample_url)
                       (sample_env
                          [Reply 0 (Some (VString (js "loadstring ok")))
                                 (qz 35)])
                       true true)]
                 initial_server)).
Proof.
  apply cache_keys_are_https. intros key entry Hk.
  unfold FileService.loadSavedUrls in Hk. simpl in Hk.
  by rewrite lookup_empty in Hk.
Defined.

(** ** The status file over a history *)

Lemma bypass_route_status rq srv :
  r_outcome_written rq = r_total_written rq ->
  status_adds_up (status_file srv) ->
  status_adds_up (status_file (bypass_route rq srv).1.2).
Proof.
  intros Hw Hs. unfold bypass_route.
  destruct (ApiKeyMiddleware _ _); [done|].
  destruct (negb _); [done|].
  destruct (processUrl _ _ _) as [[o s'] tr].
  revert Hs.
  unfold status_adds_up, StatusService.incrementTotal,
    StatusService.incrementSuccess, StatusService.incrementFailure,
    StatusService.saveStatus, StatusService.getStatus.
  rewrite <- Hw.
  destruct o; simpl; destruct (r_outcome_written rq);
    destruct (status_file srv) as [[[t|] [su|] [fa|]]|]; simpl; lia.
Qed.

Lemma handle_status_file srv r :
  (forall rq, r <> GetBypass rq) ->
  status_file (handle srv r) = status_file srv.
Proof.
  intros Hr. destruct r as [rq|k p|k e body|written]; simpl.
  - by destruct (Hr rq).
  - unfold toggle_bypass. destruct (negb _); [done|].
    destruct p as [p|]; [|done].
    destruct (String.eqb p "on"); [done|]. by destruct (String.eqb p "off").
  - unfold add_api_route. destruct (negb _); [done|].
    by destruct (admin_add_api e body (core srv)).
  - done.
Qed.

(** Requests being served one after the other: when, for every [/bypass]
    request, the two writes of [.status.json] succeed together or fail
    together, the file keeps [totalRequests = successfulRequests +
    failedRequests] (each read through [|| 0]) over the whole history. *)
Theorem status_counters_add_up (reqs : list request) (srv : server) :
  (forall rq, GetBypass rq ∈ reqs ->
              r_outcome_written rq = r_total_written rq) ->
  status_adds_up (status_file srv) ->
  status_adds_up (status_file (serve reqs srv)).
Proof.
  unfold serve. revert srv.
  induction reqs as [|r reqs IH]; intros srv Hw Hs; [done|].
  simpl. apply IH.
  - intros rq Hin. apply Hw. by apply list_elem_of_further.
  - destruct r as [rq|k p|k e body|written].
    + apply bypass_route_status; [|done]. apply Hw, list_elem_of_here.
    + by rewrite handle_status_file.
    + by rewrite handle_status_file.
    + by rewrite handle_status_file.
Qed.

Lemma status_counters_add_up_witness :
  status_adds_up
    (status_file
       (serve [GetBypass
                 (mkBypassRequest (Some API_KEY) (Some sample_url)
                    (sample_env
                       [Reply 0 (Some (VString (js "error 404"))) (qz 35)])
                    true true)]
              initial_server)).
Proof.
  apply status_counters_add_up.
  - intros rq Hin. apply list_elem_of_singleton in Hin.
    injection Hin as ->. reflexivity.
  - reflexivity.
Defined.

(** ** The bypass switched off *)




(** ** The tracker over a history *)



(** ** The supplementary list over a history *)

Lemma processUrl_apis_dat e u s :
  apis_dat (processUrl e u s).1.2 = apis_dat s.
Proof.
  unfold processUrl, processUrl_with.
  destruct (Nat.eqb _ 0); [done|].
  destruct (cache_get _ _ _); [done|].
  destruct (resolved _) as [r|]; [|by destruct (rejected _)].
  unfold FileService.saveUrl. by destruct (write_ok e).
Qed.

Lemma admin_add_api_prefix e body s :
  FileService.loadAdditionalApis s
  `prefix_of` FileService.loadAdditionalApis (admin_add_api e body s).2.
Proof.
  unfold admin_add_api. destruct body as [newApi|]; [|done].
  case_bool_decide; [done|].
  destruct (existsb _ (FileService.loadApis e)); [done|].
  destruct (existsb _ (FileService.loadAdditionalApis s)) eqn:E; [done|].
  unfold FileService.addAdditionalApi, FileService.saveAdditionalApis.
  rewrite E. destruct (write_ok e); [|done].
  simpl. unfold FileService.loadAdditionalApis at 2. simpl.
  by apply prefix_app_r.
Qed.

(** Over every history of requests, the supplementary list read at the
    start is an initial part of the list read at the end: no route removes,
    replaces or reorders a stored descriptor, whatever [apisDat.json] held
    (also when it could not be read). *)
Theorem supplementary_list_only_grows (reqs : list request) (srv : server) :
  FileService.loadAdditionalApis (core srv)
  `prefix_of` FileService.loadAdditionalApis (core (serve reqs srv)).
Proof.
  apply (serve_invariant
           (fun s => FileService.loadAdditionalApis (core srv)
                     `prefix_of` FileService.loadAdditionalApis s)).
  - intros e u s _ H. unfold FileService.loadAdditionalApis at 2.
    by rewrite processUrl_apis_dat.
  - intros e body s H. etrans; [exact H|]. apply admin_add_api_prefix.
  - intros written s H. unfold FileService.clearSavedUrls.
    by destruct written.
  - done.
Qed.

(** ** The timer that clears the cache *)

(** After the timer has cleared [urls.json], no [/bypass] answer comes from
    the cache, whatever the age of the entries it held: a result is a new
    one. *)
Theorem flush_forgets_every_entry (srv : server) (rq : bypass_request)
    (result : js_value) (cached : bool) :
  (bypass_route rq (handle srv (FlushTimer true))).1.1
  = Resolved result cached ->
  cached = false.
Proof.
  simpl. unfold bypass_route.
  destruct (ApiKeyMiddleware _ _) as [answer|] eqn:Em.
  { simpl. intros ->. unfold ApiKeyMiddleware in Em.
    destruct (negb _); [done|]. destruct (q_url rq) as [u|]; [|done].
    destruct (bool_decide _); [done|]. by destruct (negb _). }
  simpl. destruct (negb (bypassEnabled srv)); [done|].
  unfold processUrl, processUrl_with.
  destruct (Nat.eqb _ 0); [done|].
  unfold FileService.loadSavedUrls at 1. simpl.
  unfold cache_get at 1. rewrite lookup_empty.
  destruct (resolved _) as [r|]; simpl; [by intros [= _ <-]|].
  by destruct (rejected _).
Qed.

Lemma flush_forgets_every_entry_witness :
  (bypass_route
     (mkBypassRequest (Some API_KEY) (Some sample_url)
        (sample_env [Reply 0 (Some (VString (js "loadstring ok"))) (qz 35)])
        true true)
     (mkServer sample_cached None true)).1.1
  = Resolved (VString (js "ok")) true
  /\ (bypass_route
        (mkBypassRequest (Some API_KEY) (Some sample_url)
           (sample_env
              [Reply 0 (Some (VString (js "loadstring ok"))) (qz 35)])
           true true)
        (handle (mkServer sample_cached None true) (FlushTimer true))).1.1
     = Resolved (VString (js "loadstring ok")) false
  /\ false = false.
Proof.
  split; [vm_compute; reflexivity|].
  split; [vm_compute; reflexivity|].
  apply (flush_forgets_every_entry
           (mkServer sample_cached None true)
           (mkBypassRequest (Some API_KEY) (Some sample_url)
              (sample_env
                 [Reply 0 (Some (VString (js "loadstring ok"))) (qz 35)])
              true true)
           (VString (js "loadstring ok")) false).
  vm_compute. reflexivity.
Defined.
